(** * The Identify service of js-libp2p (src/identify/index.ts)

    A shallow embedding of [IdentifyService]: the initiator ([_identify],
    [identify]), the two responders ([_handleIdentify], [_handlePush]), the
    push initiator ([push], [pushToPeerStore]), the life cycle ([start],
    [stop]) and the event listeners installed by the constructor.

    The service talks to its collaborators (peer store, address manager,
    registrar, connection manager, the crypto and multiaddr libraries) through
    interfaces; they are type classes here.  Asynchronous code is written in
    a state-and-exception monad over a [World] that also records, in order,
    every call the service makes on a collaborator.

    Left out: logging, and the clock.  A timeout or an abort signal shows as
    a [newStream] that throws or a stream whose read throws; tasks run one
    after the other, each to its end. *)

From Stdlib Require Import String Ascii List NArith Lia Bool.
From Stdlib.Strings Require Byte.
From stdpp Require Import base option list strings gmap.

Import ListNotations.
Local Open Scope string_scope.
Local Open Scope list_scope.

(** ** Bytes and errors *)

Abbreviation byte := Byte.byte.

(** A [Uint8Array]. *)
Definition Uint8Array : Type := list byte.

(** [uint8ArrayFromString]: the UTF-8 bytes of a string. *)
Definition uint8ArrayFromString (s : string) : Uint8Array :=
  String.list_byte_of_string s.

(** A thrown value: an [Error] with a message and, for a [CodeError], a code. *)
Record Error : Type := mkError { message : string; code : option string }.

Definition CodeError (msg c : string) : Error := mkError msg (Some c).

(** [String(err)] *)
Definition String_of_error (e : Error) : string := "Error: " ++ message e.

(** The outcome of a call that may throw: [inl] is the thrown error. *)
Definition Result (A : Type) : Type := (Error + A)%type.

(** Modelled from the spec: the error codes of [../errors.js], by the names
    section 7 of the specification gives to the kinds of error. *)
Module codes.
Definition ERR_CONNECTION_ENDED := "ERR_CONNECTION_ENDED".
Definition ERR_MESSAGE_TOO_LARGE := "ERR_MESSAGE_TOO_LARGE".
Definition ERR_INVALID_MESSAGE := "ERR_INVALID_MESSAGE".
Definition ERR_MISSING_PUBLIC_KEY := "ERR_MISSING_PUBLIC_KEY".
Definition ERR_INVALID_PEER := "ERR_INVALID_PEER".
End codes.

(** [const MAX_IDENTIFY_MESSAGE_SIZE = 1024 * 8] *)
Definition MAX_IDENTIFY_MESSAGE_SIZE : N := 1024 * 8.

(** ** Length-prefixed framing *)

Module lp.

(** The byte with the given value (values are always below 256 here). *)
Definition byte_of_N (n : N) : byte :=
  match Byte.of_N n with Some b => b | None => Byte.x00 end.

(** Unsigned varint: seven bits per byte, least significant group first,
    the high bit of a byte says that another byte follows. *)
Fixpoint encode_varint_fuel (fuel : nat) (n : N) : Uint8Array :=
  match fuel with
  | O => [byte_of_N (n mod 128)]
  | S fuel' =>
      if (n <? 128)%N then [byte_of_N n]
      else byte_of_N (n mod 128 + 128) :: encode_varint_fuel fuel' (n / 128)
  end.

Definition encode_varint (n : N) : Uint8Array :=
  encode_varint_fuel (N.to_nat (N.size n)) n.

Fixpoint read_varint (bs : Uint8Array) : option (N * Uint8Array) :=
  match bs with
  | [] => None
  | b :: rest =>
      let v := Byte.to_N b in
      if (v <? 128)%N then Some (v, rest)
      else match read_varint rest with
           | Some (hi, rest') => Some ((v - 128) + 128 * hi, rest')%N
           | None => None
           end
  end.

(** [lp.encode()] applied to one message. *)
Definition encode (msg : Uint8Array) : Uint8Array :=
  encode_varint (N.of_nat (length msg)) ++ msg.

(** What a read of one frame leaves behind: the outcome and the bytes of
    the stream that were not taken from it. *)
Record Read : Type := mkRead { outcome : Result (option Uint8Array); unread : Uint8Array }.

(** Modelled from the spec: [decode_one(stream, max_len)] of section 4.2,
    which stands for [lp.decode({ maxDataLength })] of the package
    it-length-prefixed, followed by [first]: read a varint; if its value
    exceeds [max_len], fail with [ERR_MESSAGE_TOO_LARGE] without taking the
    payload; otherwise read exactly that many bytes.  A stream that ends
    before one complete frame arrived yields no frame. *)
Definition decode_one (stream : Uint8Array) (max_len : N) : Read :=
  match read_varint stream with
  | None => mkRead (inr None) []
  | Some (len, payload) =>
      if (max_len <? len)%N then
        mkRead (inl (CodeError "message length too long" codes.ERR_MESSAGE_TOO_LARGE)) payload
      else if (N.of_nat (length payload) <? len)%N then
        mkRead (inr None) []
      else
        mkRead (inr (Some (take (N.to_nat len) payload))) (drop (N.to_nat len) payload)
  end.

End lp.

(** ** Data model *)

(** A peer id: its multihash and, when known, the public key.
    [equals] compares the multihashes. *)
Record PeerId : Type := mkPeerId { multihash : Uint8Array; publicKey : option Uint8Array }.

Definition byte_eqb (a b : byte) : bool := Byte.eqb a b.

Fixpoint uint8ArrayEquals (a b : Uint8Array) : bool :=
  match a, b with
  | [], [] => true
  | x :: a', y :: b' => byte_eqb x y && uint8ArrayEquals a' b'
  | _, _ => false
  end.

Definition equals (a b : PeerId) : bool :=
  uint8ArrayEquals (multihash a) (multihash b).

(** A multiaddr, by its binary form. *)
Record Multiaddr : Type := mkMultiaddr { bytes : Uint8Array }.

(** A signed envelope, once opened. *)
Module RecordEnvelope.
Record t : Type := mk {
  peerId : PeerId;
  payloadType : Uint8Array;
  payload : Uint8Array;
  signature : Uint8Array
}.
End RecordEnvelope.

(** [new PeerRecord({ peerId, multiaddrs })] *)
Module PeerRecord.
Record t : Type := mk { peerId : PeerId; multiaddrs : list Multiaddr }.
End PeerRecord.

(** The [Identify] message of [./pb/message.js]: every field is optional on
    the wire, the two repeated fields decode to arrays. *)
Module Identify.
Record t : Type := mk {
  protocolVersion : option string;
  agentVersion : option string;
  publicKey : option Uint8Array;
  listenAddrs : list Uint8Array;
  observedAddr : option Uint8Array;
  protocols : list string;
  signedPeerRecord : option Uint8Array
}.
End Identify.

(** A peer as [peerStore.get] returns it (the fields the service reads). *)
Record Peer : Type := mkPeer {
  peer_protocols : list string;
  peerRecordEnvelope : option Uint8Array
}.

(** A stream, by what reading it gives: the bytes the remote side writes on
    it before it ends, or the error the read throws (abort, reset). *)
Definition Stream : Type := Result Uint8Array.

(** A connection: [newStream] answers with a stream, or throws. *)
Record Connection : Type := mkConnection {
  conn_id : string;
  remotePeer : PeerId;
  remoteAddr : Multiaddr;
  newStream : list string -> Result Stream
}.

(** [IncomingStreamData]: the connection and the inbound stream, given by the
    bytes the remote side writes on it (or the error reading it throws). *)
Record IncomingStreamData : Type := mkIncomingStreamData {
  connection : Connection;
  stream : Stream
}.

Record HostProperties : Type := mkHostProperties { agentVersion : string }.

Record IdentifyServiceInit : Type := mkIdentifyServiceInit {
  protocolPrefix : string;
  host : HostProperties;
  timeout : N;
  maxIdentifyMessageSize : option N;
  maxInboundStreams : N;
  maxOutboundStreams : N;
  maxPushIncomingStreams : N;
  maxPushOutgoingStreams : N;
  maxObservedAddresses : option nat
}.

(** The service object: [this.components.peerId] and [this.init].  The other
    components are collaborators and live in the [World]. *)
Record IdentifyService : Type := mkIdentifyService {
  peerId : PeerId;
  init : IdentifyServiceInit
}.

(** ** Collaborators *)

(** The constants of [./consts.js]. *)
Class Consts : Type := {
  IDENTIFY_PROTOCOL_VERSION : string;
  MULTICODEC_IDENTIFY_PROTOCOL_NAME : string;
  MULTICODEC_IDENTIFY_PUSH_PROTOCOL_NAME : string;
  MULTICODEC_IDENTIFY_PROTOCOL_VERSION : string;
  MULTICODEC_IDENTIFY_PUSH_PROTOCOL_VERSION : string
}.

(** The libraries the service imports: multiaddr parsing, peer-id
    derivation, envelopes, and the message codec. *)
Class Libraries : Type := {
  multiaddr : Uint8Array -> Result Multiaddr;
  decapsulateCode : Multiaddr -> N -> Multiaddr;
  protocols_code : string -> N;
  peerIdFromKeys : Uint8Array -> Result PeerId;
  PeerRecord_DOMAIN : string;
  openAndCertify : Uint8Array -> string -> Result RecordEnvelope.t;
  seal : PeerRecord.t -> PeerId -> Result RecordEnvelope.t;
  marshal : RecordEnvelope.t -> Uint8Array;
  Identify_encode : Identify.t -> Uint8Array;
  Identify_decode : Uint8Array -> Result Identify.t
}.

(** The peer store, by the operations the service calls on its books, under
    the contract of section 6 of the specification: a write returns nothing
    and [consumePeerRecord] answers with a boolean, neither throws.  What the
    [try]/[catch] blocks of the service catch is then what the libraries
    throw. *)
Class PeerStore (PS : Type) : Type := {
  addressBook_consumePeerRecord : RecordEnvelope.t -> PS -> bool * PS;
  addressBook_set : PeerId -> list Multiaddr -> PS -> PS;
  addressBook_getRawEnvelope : PeerId -> PS -> option Uint8Array;
  protoBook_set : PeerId -> list string -> PS -> PS;
  protoBook_get : PeerId -> PS -> list string;
  metadataBook_setValue : PeerId -> string -> Uint8Array -> PS -> PS;
  get_peer : PeerId -> PS -> Result Peer
}.

(** Modelled from the spec: the address manager, by the operations
    [get_addresses], [get_observed_addrs] and [add_observed_addr] of
    section 6.  One call of [addObservedAddr] stores at most one more
    observed address. *)
Class AddressManager (AM : Type) : Type := {
  getAddresses : AM -> list Multiaddr;
  getObservedAddrs : AM -> list Multiaddr;
  addObservedAddr : Multiaddr -> AM -> AM;
  addObservedAddr_length : forall ma am,
    length (getObservedAddrs (addObservedAddr ma am)) <= S (length (getObservedAddrs am))
}.

(** Which method of the service a registered stream handler runs. *)
Inductive StreamHandler : Type := handleIdentify | handlePush.

Record StreamHandlerRecord : Type := mkStreamHandlerRecord {
  handler : StreamHandler;
  options_maxInboundStreams : N;
  options_maxOutboundStreams : N
}.

(** A call of the service on one of its collaborators. *)
Inductive Call : Type :=
| NewStream (conn : string) (protocols : list string)
| StreamSink (conn : string) (data : Uint8Array)
| StreamClose (conn : string)
| ConsumePeerRecord (envelope : RecordEnvelope.t)
| AddressBookSet (id : PeerId) (addrs : list Multiaddr)
| ProtoBookSet (id : PeerId) (protocols : list string)
| MetadataBookSetValue (id : PeerId) (key : string) (value : Uint8Array)
| AddObservedAddr (addr : Multiaddr)
| RegistrarHandle (protocol : string)
| RegistrarUnhandle (protocol : string).

(** ** The world and the monad of asynchronous code *)

Section World.
Context {PS AM : Type}.

(** The state around the service: the peer store, the address manager, the
    registrar's table (modelled from the spec: [handle] registers a
    protocol string, [unhandle] removes it), the connections of the
    connection manager, the [started] flag of the service, and the calls
    made so far, oldest first. *)
Record World : Type := mkWorld {
  peerStore : PS;
  addressManager : AM;
  registrar : gmap string StreamHandlerRecord;
  connections : list Connection;
  started : bool;
  calls : list Call
}.

Definition with_peerStore (ps : PS) (w : World) : World :=
  mkWorld ps (addressManager w) (registrar w) (connections w) (started w) (calls w).
Definition with_addressManager (am : AM) (w : World) : World :=
  mkWorld (peerStore w) am (registrar w) (connections w) (started w) (calls w).
Definition with_registrar (r : gmap string StreamHandlerRecord) (w : World) : World :=
  mkWorld (peerStore w) (addressManager w) r (connections w) (started w) (calls w).
Definition with_started (b : bool) (w : World) : World :=
  mkWorld (peerStore w) (addressManager w) (registrar w) (connections w) b (calls w).
Definition record (c : Call) (w : World) : World :=
  mkWorld (peerStore w) (addressManager w) (registrar w) (connections w) (started w)
          (calls w ++ [c]).

(** An asynchronous computation: it ends with a value or a thrown error,
    and the state it reached is kept in both cases. *)
Definition M (A : Type) : Type := World -> Result A * World.

Definition ret {A} (a : A) : M A := fun w => (inr a, w).
Definition throw {A} (e : Error) : M A := fun w => (inl e, w).
Definition bind {A B} (m : M A) (k : A -> M B) : M B :=
  fun w => match m w with
           | (inr a, w') => k a w'
           | (inl e, w') => (inl e, w')
           end.
(** [try { m } catch (err) { h err }] *)
Definition try_catch {A} (m : M A) (h : Error -> M A) : M A :=
  fun w => match m w with
           | (inl e, w') => h e w'
           | (inr a, w') => (inr a, w')
           end.
(** [try { m } finally { f }], for an [f] that does not throw. *)
Definition finally {A} (m : M A) (f : World -> World) : M A :=
  fun w => match m w with (r, w') => (r, f w') end.
(** The outcome of a library call. *)
Definition lift {A} (r : Result A) : M A := fun w => (r, w).
Definition gets {A} (f : World -> A) : M A := fun w => (inr (f w), w).
Definition modify (f : World -> World) : M unit := fun w => (inr tt, f w).

(** [for (const x of l) { body x }] *)
Fixpoint for_of {A} (l : list A) (body : A -> M unit) : M unit :=
  match l with
  | [] => ret tt
  | x :: l' => bind (body x) (fun _ => for_of l' body)
  end.

(** [l.map(f)] for an [f] that may throw: the first failure ends the map. *)
Fixpoint map_throwing {A B} (f : A -> Result B) (l : list A) : Result (list B) :=
  match l with
  | [] => inr []
  | x :: l' =>
      match f x with
      | inl e => inl e
      | inr y => match map_throwing f l' with
                 | inl e => inl e
                 | inr ys => inr (y :: ys)
                 end
      end
  end.

End World.

Arguments World : clear implicits.
Arguments M : clear implicits.

Declare Scope async_scope.
Delimit Scope async_scope with async.
Notation "x <- m ;; k" := (bind m (fun x => k))
  (at level 100, m at next level, k at level 200, right associativity) : async_scope.
Notation "m ;; k" := (bind m (fun _ => k))
  (at level 100, k at level 200, right associativity) : async_scope.

(** ** The service *)

Section IdentifyService.
Context {consts : Consts} {libs : Libraries} {PS AM : Type}
        {store : PeerStore PS} {manager : AddressManager AM}.

Local Open Scope async_scope.
Local Abbreviation M := (M PS AM).
Local Abbreviation World := (World PS AM).

(** *** Calls on the collaborators; each one is recorded. *)

Definition connection_newStream (c : Connection) (protos : list string) : M Stream :=
  fun w => (newStream c protos, record (NewStream (conn_id c) protos) w).

Definition stream_close (c : Connection) : World -> World :=
  record (StreamClose (conn_id c)).

Definition source_sink (c : Connection) (data : Uint8Array) : M unit :=
  modify (record (StreamSink (conn_id c) data)).

Definition peerStore_addressBook_consumePeerRecord (envelope : RecordEnvelope.t) : M bool :=
  fun w =>
    let r := addressBook_consumePeerRecord envelope (peerStore w) in
    (inr r.1, with_peerStore r.2 (record (ConsumePeerRecord envelope) w)).

Definition peerStore_addressBook_set (id : PeerId) (addrs : list Multiaddr) : M unit :=
  modify (fun w => with_peerStore (addressBook_set id addrs (peerStore w))
                                  (record (AddressBookSet id addrs) w)).

Definition peerStore_protoBook_set (id : PeerId) (protocols : list string) : M unit :=
  modify (fun w => with_peerStore (protoBook_set id protocols (peerStore w))
                                  (record (ProtoBookSet id protocols) w)).

Definition peerStore_metadataBook_setValue (id : PeerId) (key : string) (value : Uint8Array)
  : M unit :=
  modify (fun w => with_peerStore (metadataBook_setValue id key value (peerStore w))
                                  (record (MetadataBookSetValue id key value) w)).

Definition peerStore_get (id : PeerId) : M Peer :=
  fun w => (get_peer id (peerStore w), w).

Definition addressManager_addObservedAddr (addr : Multiaddr) : M unit :=
  modify (fun w => with_addressManager (addObservedAddr addr (addressManager w))
                                       (record (AddObservedAddr addr) w)).

Definition registrar_handle (protocol : string) (h : StreamHandlerRecord) : M unit :=
  modify (fun w => with_registrar (<[protocol := h]> (registrar w))
                                  (record (RegistrarHandle protocol) w)).

Definition registrar_unhandle (protocol : string) : M unit :=
  modify (fun w => with_registrar (delete protocol (registrar w))
                                  (record (RegistrarUnhandle protocol) w)).

(** *** The constructor's derived fields *)

Definition identifyProtocolStr (self : IdentifyService) : string :=
  "/" ++ protocolPrefix (init self) ++ "/" ++ MULTICODEC_IDENTIFY_PROTOCOL_NAME
      ++ "/" ++ MULTICODEC_IDENTIFY_PROTOCOL_VERSION.

Definition identifyPushProtocolStr (self : IdentifyService) : string :=
  "/" ++ protocolPrefix (init self) ++ "/" ++ MULTICODEC_IDENTIFY_PUSH_PROTOCOL_NAME
      ++ "/" ++ MULTICODEC_IDENTIFY_PUSH_PROTOCOL_VERSION.

Definition host_protocolVersion (self : IdentifyService) : string :=
  protocolPrefix (init self) ++ "/" ++ IDENTIFY_PROTOCOL_VERSION.

Definition host_agentVersion (self : IdentifyService) : string :=
  agentVersion (host (init self)).

(** [this.init.maxIdentifyMessageSize ?? MAX_IDENTIFY_MESSAGE_SIZE] *)
Definition maxDataLength (self : IdentifyService) : N :=
  default MAX_IDENTIFY_MESSAGE_SIZE (maxIdentifyMessageSize (init self)).

(** *** isStarted, start, stop *)

Definition isStarted : M bool := gets started.

Definition start (self : IdentifyService) : M unit :=
  is_started <- gets started ;;
  if is_started then ret tt
  else
    peerStore_metadataBook_setValue (peerId self) "AgentVersion"
      (uint8ArrayFromString (host_agentVersion self)) ;;
    peerStore_metadataBook_setValue (peerId self) "ProtocolVersion"
      (uint8ArrayFromString (host_protocolVersion self)) ;;
    registrar_handle (identifyProtocolStr self)
      (mkStreamHandlerRecord handleIdentify
         (maxInboundStreams (init self)) (maxOutboundStreams (init self))) ;;
    registrar_handle (identifyPushProtocolStr self)
      (mkStreamHandlerRecord handlePush
         (maxPushIncomingStreams (init self)) (maxPushOutgoingStreams (init self))) ;;
    modify (with_started true).

Definition stop (self : IdentifyService) : M unit :=
  registrar_unhandle (identifyProtocolStr self) ;;
  registrar_unhandle (identifyPushProtocolStr self) ;;
  modify (with_started false).

(** *** push, pushToPeerStore *)

(** The pushes of [Promise.all] are run one after the other. *)
Definition push (self : IdentifyService) (conns : list Connection) : M unit :=
  signedPeerRecord <- gets (fun w => addressBook_getRawEnvelope (peerId self) (peerStore w)) ;;
  listenAddrs <- gets (fun w => map bytes (getAddresses (addressManager w))) ;;
  protocols <- gets (fun w => protoBook_get (peerId self) (peerStore w)) ;;
  for_of conns (fun connection =>
    try_catch
      (_ <- connection_newStream connection [identifyPushProtocolStr self] ;;
       finally
         (source_sink connection
            (lp.encode (Identify_encode
               (Identify.mk None None None listenAddrs None protocols signedPeerRecord))))
         (stream_close connection))
      (fun err => ret tt)).

Definition pushToPeerStore (self : IdentifyService) : M unit :=
  is_started <- isStarted ;;
  if negb is_started then ret tt
  else
    all <- gets connections ;;
    (fix loop (l : list Connection) (acc : list Connection) : M unit :=
       match l with
       | [] => push self acc
       | conn :: l' =>
           peer <- peerStore_get (remotePeer conn) ;;
           if negb (bool_decide (identifyPushProtocolStr self ∈ peer_protocols peer))
           then loop l' acc
           else loop l' (acc ++ [conn])
       end) all [].

(** *** _identify, identify *)

Definition _identify (self : IdentifyService) (connection : Connection) : M Identify.t :=
  stream <- connection_newStream connection [identifyProtocolStr self] ;;
  finally
    (source <- lift stream ;;
     data <- lift (lp.outcome (lp.decode_one source (maxDataLength self))) ;;
     match data with
     | None => throw (CodeError "No data could be retrieved" codes.ERR_CONNECTION_ENDED)
     | Some data =>
         match Identify_decode data with
         | inr message => ret message
         | inl err => throw (CodeError (String_of_error err) codes.ERR_INVALID_MESSAGE)
         end
     end)
    (stream_close connection).

(** [getCleanMultiaddr] *)
Definition getCleanMultiaddr (addr : option Uint8Array) : option Multiaddr :=
  match addr with
  | Some addr =>
      if (0 <? length addr)%nat
      then match multiaddr addr with inr ma => Some ma | inl _ => None end
      else None
  | None => None
  end.

(** [n < (max ?? Infinity)] *)
Definition below (n : nat) (max : option nat) : bool :=
  match max with Some m => (n <? m)%nat | None => true end.

(** [if (v != null) { await metadataBook.setValue(id, key, uint8ArrayFromString(v)) }] *)
Definition setValue_if_present (id : PeerId) (key : string) (v : option string) : M unit :=
  match v with
  | Some v => peerStore_metadataBook_setValue id key (uint8ArrayFromString v)
  | None => ret tt
  end.

(** The envelope branch of [identify] answers [true] where the source
    returns from [identify], [false] where control falls out of the
    [if]/[try] towards the legacy code. *)
Definition identify (self : IdentifyService) (connection : Connection) : M unit :=
  message <- _identify self connection ;;
  match Identify.publicKey message with
  | None =>
      throw (CodeError "public key was missing from identify message"
                       codes.ERR_MISSING_PUBLIC_KEY)
  | Some publicKey =>
      id <- lift (peerIdFromKeys publicKey) ;;
      if negb (equals (remotePeer connection) id) then
        throw (CodeError "identified peer does not match the expected peer"
                         codes.ERR_INVALID_PEER)
      else if equals (peerId self) id then
        throw (CodeError "identified peer is our own peer id?" codes.ERR_INVALID_PEER)
      else
        let cleanObservedAddr := getCleanMultiaddr (Identify.observedAddr message) in
        returned <-
          match Identify.signedPeerRecord message with
          | Some signedPeerRecord =>
              try_catch
                (envelope <- lift (openAndCertify signedPeerRecord PeerRecord_DOMAIN) ;;
                 if negb (equals (RecordEnvelope.peerId envelope) id) then
                   throw (CodeError "identified peer does not match the expected peer"
                                    codes.ERR_INVALID_PEER)
                 else
                   accepted <- peerStore_addressBook_consumePeerRecord envelope ;;
                   if accepted then
                     peerStore_protoBook_set id (Identify.protocols message) ;;
                     setValue_if_present id "AgentVersion" (Identify.agentVersion message) ;;
                     setValue_if_present id "ProtocolVersion"
                       (Identify.protocolVersion message) ;;
                     ret true
                   else ret false)
                (fun err => ret false)
          | None => ret false
          end ;;
        if returned then ret tt
        else
          try_catch
            (addrs <- lift (map_throwing multiaddr (Identify.listenAddrs message)) ;;
             peerStore_addressBook_set id addrs)
            (fun err => ret tt) ;;
          peerStore_protoBook_set id (Identify.protocols message) ;;
          setValue_if_present id "AgentVersion" (Identify.agentVersion message) ;;
          setValue_if_present id "ProtocolVersion" (Identify.protocolVersion message) ;;
          match cleanObservedAddr with
          | Some addr =>
              observed <- gets (fun w => length (getObservedAddrs (addressManager w))) ;;
              if below observed (maxObservedAddresses (init self))
              then addressManager_addObservedAddr addr
              else ret tt
          | None => ret tt
          end
  end.

(** *** _handleIdentify, _handlePush *)

Definition _handleIdentify (self : IdentifyService) (data : IncomingStreamData) : M unit :=
  let connection := connection data in
  finally
    (try_catch
       (let publicKey := default [] (publicKey (peerId self)) in
        peerData <- peerStore_get (peerId self) ;;
        multiaddrs <- gets (fun w =>
          map (fun ma => decapsulateCode ma (protocols_code "p2p"))
              (getAddresses (addressManager w))) ;;
        signedPeerRecord <-
          (if (0 <? length multiaddrs)%nat
              && negb (bool_decide (is_Some (peerRecordEnvelope peerData)))
           then
             envelope <- lift (seal (PeerRecord.mk (peerId self) multiaddrs) (peerId self)) ;;
             _ <- peerStore_addressBook_consumePeerRecord envelope ;;
             ret (Some (marshal envelope))
           else ret (peerRecordEnvelope peerData)) ;;
        let message := Identify_encode
          (Identify.mk (Some (host_protocolVersion self))
                       (Some (host_agentVersion self))
                       (Some publicKey)
                       (map bytes multiaddrs)
                       (Some (bytes (remoteAddr connection)))
                       (peer_protocols peerData)
                       signedPeerRecord) in
        source_sink connection (lp.encode message))
       (fun err => ret tt))
    (stream_close connection).

(** Reading the pushed message: [None] stands for the two ways out of
    [_handlePush] before the message is looked at (the [return] of the
    [catch], and [message == null]). *)
Definition read_push (self : IdentifyService) (data : IncomingStreamData)
  : M (option Identify.t) :=
  finally
    (try_catch
       (source <- lift (stream data) ;;
        data <- lift (lp.outcome (lp.decode_one source (maxDataLength self))) ;;
        match data with
        | Some data => message <- lift (Identify_decode data) ;; ret (Some message)
        | None => ret None
        end)
       (fun err => ret None))
    (stream_close (connection data)).

Definition _handlePush (self : IdentifyService) (data : IncomingStreamData) : M unit :=
  let connection := connection data in
  message <- read_push self data ;;
  match message with
  | None => ret tt
  | Some message =>
      let id := remotePeer connection in
      if equals (peerId self) id then ret tt
      else
        returned <-
          match Identify.signedPeerRecord message with
          | Some signedPeerRecord =>
              try_catch
                (envelope <- lift (openAndCertify signedPeerRecord PeerRecord_DOMAIN) ;;
                 accepted <- peerStore_addressBook_consumePeerRecord envelope ;;
                 if accepted then
                   peerStore_protoBook_set id (Identify.protocols message) ;;
                   ret true
                 else ret false)
                (fun err => ret false)
          | None => ret false
          end ;;
        if returned then ret tt
        else
          try_catch
            (addrs <- lift (map_throwing multiaddr (Identify.listenAddrs message)) ;;
             peerStore_addressBook_set id addrs)
            (fun err => ret tt) ;;
          try_catch
            (peerStore_protoBook_set id (Identify.protocols message))
            (fun err => ret tt)
  end.

(** *** The listeners of the constructor, and the registrar's dispatch *)

Inductive Event : Type :=
| peer_connect (detail : Connection)
| change_multiaddrs (detail_peerId : PeerId)
| change_protocols (detail_peerId : PeerId).

(** What the listeners added by the constructor do when the connection
    manager or the peer store emits an event.  The constructor adds them
    and nothing removes them. *)
Definition dispatchEvent (self : IdentifyService) (evt : Event) : M unit :=
  match evt with
  | peer_connect connection =>
      try_catch (identify self connection) (fun err => ret tt)
  | change_multiaddrs peerId' =>
      if equals (peerId self) peerId'
      then try_catch (pushToPeerStore self) (fun err => ret tt)
      else ret tt
  | change_protocols peerId' =>
      if equals (peerId self) peerId'
      then try_catch (pushToPeerStore self) (fun err => ret tt)
      else ret tt
  end.

(** An inbound stream negotiated to [protocol]: the registrar runs the
    handler registered for it, if there is one. *)
Definition onIncomingStream (self : IdentifyService) (protocol : string)
           (data : IncomingStreamData) : M unit :=
  table <- gets registrar ;;
  match table !! protocol with
  | Some h =>
      match handler h with
      | handleIdentify => try_catch (_handleIdentify self data) (fun err => ret tt)
      | handlePush => try_catch (_handlePush self data) (fun err => ret tt)
      end
  | None => ret tt
  end.

(** The events of a run, handled one after the other. *)
Fixpoint dispatchEvents (self : IdentifyService) (evts : list Event) (w : World) : World :=
  match evts with
  | [] => w
  | evt :: evts' => dispatchEvents self evts' (dispatchEvent self evt w).2
  end.

(** A run of identify exchanges, one per connection, as [peer:connect]
    events start them. *)
Definition identify_all (self : IdentifyService) (conns : list Connection) (w : World)
  : World :=
  dispatchEvents self (map peer_connect conns) w.

(** The calls made by a computation started in [w]. *)
Definition calls_of {A} (m : M A) (w : World) : list Call :=
  drop (length (calls w)) (calls (m w).2).

End IdentifyService.

(** ** A small network to run the service on

    In-memory collaborators: enough of a peer store, an address manager and
    the libraries to run the service on concrete messages. *)

Module Testbed.

#[global] Instance byte_eq_dec : EqDecision byte := Byte.byte_eq_dec.
#[global] Instance Multiaddr_eq_dec : EqDecision Multiaddr.
Proof. solve_decision. Defined.

(** The values of [./consts.js]. *)
#[local] Instance consts : Consts := {|
  IDENTIFY_PROTOCOL_VERSION := "0.1.0";
  MULTICODEC_IDENTIFY_PROTOCOL_NAME := "id";
  MULTICODEC_IDENTIFY_PUSH_PROTOCOL_NAME := "id/push";
  MULTICODEC_IDENTIFY_PROTOCOL_VERSION := "1.0.0";
  MULTICODEC_IDENTIFY_PUSH_PROTOCOL_VERSION := "1.0.0"
|}.

(** Binary multiaddrs are accepted when they start with the code of [ip4]. *)
Definition parse_multiaddr (b : Uint8Array) : Result Multiaddr :=
  match b with
  | Byte.x04 :: _ => inr (mkMultiaddr b)
  | _ => inl (mkError "invalid multiaddr" None)
  end.

(** A key is its own multihash; the empty key is refused. *)
Definition derive_peerId (key : Uint8Array) : Result PeerId :=
  match key with
  | [] => inl (mkError "invalid public key" (Some "ERR_INVALID_KEY"))
  | _ => inr (mkPeerId key (Some key))
  end.

(** A marshalled envelope is the signer's one-byte key, a signature byte
    ([x01] when it verifies) and the payload. *)
Definition open_envelope (b : Uint8Array) (domain : string) : Result RecordEnvelope.t :=
  match b with
  | key :: Byte.x01 :: payload =>
      inr (RecordEnvelope.mk (mkPeerId [key] (Some [key])) [] payload [Byte.x01])
  | _ => inl (mkError "envelope signature is not valid for the given domain"
                      (Some "ERR_SIGNATURE_NOT_VALID"))
  end.

Definition marshal_envelope (e : RecordEnvelope.t) : Uint8Array :=
  multihash (RecordEnvelope.peerId e) ++ [Byte.x01] ++ RecordEnvelope.payload e.

(** A payload is a sequence number followed by one binary multiaddr. *)
Definition seal_record (r : PeerRecord.t) (signer : PeerId) : Result RecordEnvelope.t :=
  inr (RecordEnvelope.mk signer []
         (Byte.x01 :: concat (map bytes (PeerRecord.multiaddrs r))) [Byte.x01]).

(** Libraries whose codec decodes frames with [decode]. *)
Definition libraries (decode : Uint8Array -> Result Identify.t) : Libraries := {|
  multiaddr := parse_multiaddr;
  decapsulateCode := fun ma _ => ma;
  protocols_code := fun _ => 421%N;
  peerIdFromKeys := derive_peerId;
  PeerRecord_DOMAIN := "libp2p-peer-record";
  openAndCertify := open_envelope;
  seal := seal_record;
  marshal := marshal_envelope;
  Identify_encode := fun _ => [Byte.x0a];
  Identify_decode := decode
|}.

(** The entry of a peer in the in-memory peer store. *)
Record Entry : Type := mkEntry {
  addresses : list Multiaddr;
  protos : list string;
  metadata : list (string * Uint8Array);
  seqNumber : option N;
  rawEnvelope : option Uint8Array
}.

Definition emptyEntry : Entry := mkEntry [] [] [] None None.

(** Entries by multihash, most recently written first. *)
Definition Store : Type := list (Uint8Array * Entry).

Fixpoint lookup_entry (k : Uint8Array) (s : Store) : option Entry :=
  match s with
  | [] => None
  | (k', e) :: s' => if uint8ArrayEquals k k' then Some e else lookup_entry k s'
  end.

Definition entry (id : PeerId) (s : Store) : Entry :=
  default emptyEntry (lookup_entry (multihash id) s).

Definition update (id : PeerId) (f : Entry -> Entry) (s : Store) : Store :=
  (multihash id, f (entry id s))
    :: filter (fun kv => uint8ArrayEquals (multihash id) kv.1 = false) s.

(** The record is stored under the envelope's own peer id when it parses
    and its sequence number is greater than the one stored. *)
Definition consume (e : RecordEnvelope.t) (s : Store) : bool * Store :=
  match RecordEnvelope.payload e with
  | seq :: addr =>
      match parse_multiaddr addr with
      | inr ma =>
          let old := entry (RecordEnvelope.peerId e) s in
          let newer := match seqNumber old with
                       | Some n => (n <? Byte.to_N seq)%N
                       | None => true
                       end in
          if newer then
            (true, update (RecordEnvelope.peerId e)
                     (fun en => mkEntry [ma] (protos en) (metadata en)
                                        (Some (Byte.to_N seq)) (Some (marshal_envelope e))) s)
          else (false, s)
      | inl _ => (false, s)
      end
  | [] => (false, s)
  end.

#[local] Instance peerStore_in_memory : PeerStore Store := {|
  addressBook_consumePeerRecord := consume;
  addressBook_set := fun id addrs =>
    update id (fun en => mkEntry addrs (protos en) (metadata en) (seqNumber en) (rawEnvelope en));
  addressBook_getRawEnvelope := fun id s => rawEnvelope (entry id s);
  protoBook_set := fun id ps =>
    update id (fun en => mkEntry (addresses en) ps (metadata en) (seqNumber en) (rawEnvelope en));
  protoBook_get := fun id s => protos (entry id s);
  metadataBook_setValue := fun id key value =>
    update id (fun en => mkEntry (addresses en) (protos en) ((key, value) :: metadata en)
                                 (seqNumber en) (rawEnvelope en));
  get_peer := fun id s =>
    match lookup_entry (multihash id) s with
    | Some en => inr (mkPeer (protos en) (rawEnvelope en))
    | None => inl (mkError "Not found" (Some "ERR_NOT_FOUND"))
    end
|}.

(** The address manager: listen addresses and the observed ones, each
    observed address kept once. *)
Record Addresses : Type := mkAddresses { listen : list Multiaddr; observed : list Multiaddr }.

Definition add_observed (ma : Multiaddr) (a : Addresses) : Addresses :=
  if bool_decide (ma ∈ observed a) then a
  else mkAddresses (listen a) (observed a ++ [ma]).

Lemma add_observed_length ma a :
  length (observed (add_observed ma a)) <= S (length (observed a)).
Proof.
  unfold add_observed. case_bool_decide; simpl; [lia|].
  rewrite length_app. simpl. lia.
Qed.

#[local] Instance addressManager_in_memory : AddressManager Addresses := {|
  getAddresses := listen;
  getObservedAddrs := observed;
  addObservedAddr := add_observed;
  addObservedAddr_length := add_observed_length
|}.

End Testbed.

(** ** The writes of one exchange, as functions on the world

    What [identify] and [_handlePush] do to the world once the message is
    accepted, step by step, and the calls each step records.  The theorems
    below first show that the asynchronous code computes exactly these. *)

Section Reconciler.
Context {consts : Consts} {libs : Libraries} {PS AM : Type}
        {store : PeerStore PS} {manager : AddressManager AM}.
Local Abbreviation World := (World PS AM).
Implicit Types (self : IdentifyService) (conn : Connection) (w : World)
               (id : PeerId) (message : Identify.t).

(** The world after [_identify] opened and closed its stream. *)
Definition opened self conn w : World :=
  record (StreamClose (conn_id conn))
         (record (NewStream (conn_id conn) [identifyProtocolStr self]) w).

(** What [_identify] makes of the bytes of the stream. *)
Definition received self (stream : Stream) : Result Identify.t :=
  match stream with
  | inl e => inl e
  | inr source =>
      match lp.outcome (lp.decode_one source (maxDataLength self)) with
      | inl e => inl e
      | inr None => inl (CodeError "No data could be retrieved" codes.ERR_CONNECTION_ENDED)
      | inr (Some data) =>
          match Identify_decode data with
          | inr message => inr message
          | inl err => inl (CodeError (String_of_error err) codes.ERR_INVALID_MESSAGE)
          end
      end
  end.

(** What [_handlePush] makes of the inbound stream: the message, if one
    frame arrived and decodes. *)
Definition pushed self (data : IncomingStreamData) : option Identify.t :=
  match stream data with
  | inr source =>
      match lp.outcome (lp.decode_one source (maxDataLength self)) with
      | inr (Some data) =>
          match Identify_decode data with
          | inr message => Some message
          | inl _ => None
          end
      | _ => None
      end
  | inl _ => None
  end.

(** The envelope of the message when it opens and its peer id is [id]. *)
Definition verified_envelope message id : option RecordEnvelope.t :=
  match Identify.signedPeerRecord message with
  | Some signedPeerRecord =>
      match openAndCertify signedPeerRecord PeerRecord_DOMAIN with
      | inr envelope =>
          if equals (RecordEnvelope.peerId envelope) id then Some envelope else None
      | inl _ => None
      end
  | None => None
  end.

(** The envelope of the message when it opens, whatever its peer id. *)
Definition opened_envelope message : option RecordEnvelope.t :=
  match Identify.signedPeerRecord message with
  | Some signedPeerRecord =>
      match openAndCertify signedPeerRecord PeerRecord_DOMAIN with
      | inr envelope => Some envelope
      | inl _ => None
      end
  | None => None
  end.

(** The message carries a signed peer record that verifies, whose peer id
    is [id], and that the address book accepts in the state [ps]. *)
Definition envelope_wins message id (ps : PS) : bool :=
  match verified_envelope message id with
  | Some envelope => (addressBook_consumePeerRecord envelope ps).1
  | None => false
  end.

Definition offer_envelope (envelope : RecordEnvelope.t) w : World :=
  with_peerStore (addressBook_consumePeerRecord envelope (peerStore w)).2
                 (record (ConsumePeerRecord envelope) w).

Definition store_protocols id message w : World :=
  with_peerStore (protoBook_set id (Identify.protocols message) (peerStore w))
                 (record (ProtoBookSet id (Identify.protocols message)) w).

Definition store_metadata id (key : string) (v : option string) w : World :=
  match v with
  | Some v =>
      with_peerStore (metadataBook_setValue id key (uint8ArrayFromString v) (peerStore w))
                     (record (MetadataBookSetValue id key (uint8ArrayFromString v)) w)
  | None => w
  end.

Definition store_listenAddrs id message w : World :=
  match map_throwing multiaddr (Identify.listenAddrs message) with
  | inr addrs =>
      with_peerStore (addressBook_set id addrs (peerStore w))
                     (record (AddressBookSet id addrs) w)
  | inl _ => w
  end.

Definition learn_observedAddr self message w : World :=
  match getCleanMultiaddr (Identify.observedAddr message) with
  | Some addr =>
      if below (length (getObservedAddrs (addressManager w)))
               (maxObservedAddresses (init self))
      then with_addressManager (addObservedAddr addr (addressManager w))
                               (record (AddObservedAddr addr) w)
      else w
  | None => w
  end.

Definition store_identity id message w : World :=
  store_metadata id "ProtocolVersion" (Identify.protocolVersion message)
    (store_metadata id "AgentVersion" (Identify.agentVersion message)
       (store_protocols id message w)).

Definition legacy self id message w : World :=
  learn_observedAddr self message
    (store_identity id message (store_listenAddrs id message w)).

Definition reconcile self id message w : World :=
  match verified_envelope message id with
  | Some envelope =>
      if (addressBook_consumePeerRecord envelope (peerStore w)).1
      then store_identity id message (offer_envelope envelope w)
      else legacy self id message (offer_envelope envelope w)
  | None => legacy self id message w
  end.

Definition legacy_push id message w : World :=
  store_protocols id message (store_listenAddrs id message w).

Definition reconcile_push id message w : World :=
  match opened_envelope message with
  | Some envelope =>
      if (addressBook_consumePeerRecord envelope (peerStore w)).1
      then store_protocols id message (offer_envelope envelope w)
      else legacy_push id message (offer_envelope envelope w)
  | None => legacy_push id message w
  end.

(** The calls recorded by these steps. *)

Definition metadata_calls id (key : string) (v : option string) : list Call :=
  match v with
  | Some v => [MetadataBookSetValue id key (uint8ArrayFromString v)]
  | None => []
  end.

Definition listenAddrs_calls id message : list Call :=
  match map_throwing multiaddr (Identify.listenAddrs message) with
  | inr addrs => [AddressBookSet id addrs]
  | inl _ => []
  end.

Definition identity_calls id message : list Call :=
  ProtoBookSet id (Identify.protocols message)
    :: metadata_calls id "AgentVersion" (Identify.agentVersion message)
    ++ metadata_calls id "ProtocolVersion" (Identify.protocolVersion message).

Definition observedAddr_calls self message (am : AM) : list Call :=
  match getCleanMultiaddr (Identify.observedAddr message) with
  | Some addr =>
      if below (length (getObservedAddrs am)) (maxObservedAddresses (init self))
      then [AddObservedAddr addr]
      else []
  | None => []
  end.

Definition legacy_calls self id message (am : AM) : list Call :=
  listenAddrs_calls id message ++ identity_calls id message
    ++ observedAddr_calls self message am.

Definition reconcile_calls self id message (ps : PS) (am : AM) : list Call :=
  match verified_envelope message id with
  | Some envelope =>
      ConsumePeerRecord envelope
        :: if (addressBook_consumePeerRecord envelope ps).1
           then identity_calls id message
           else legacy_calls self id message am
  | None => legacy_calls self id message am
  end.

Definition legacy_push_calls id message : list Call :=
  listenAddrs_calls id message ++ [ProtoBookSet id (Identify.protocols message)].

Definition reconcile_push_calls id message (ps : PS) : list Call :=
  match opened_envelope message with
  | Some envelope =>
      ConsumePeerRecord envelope
        :: if (addressBook_consumePeerRecord envelope ps).1
           then [ProtoBookSet id (Identify.protocols message)]
           else legacy_push_calls id message
  | None => legacy_push_calls id message
  end.

Definition is_AddressBookSet (c : Call) : bool :=
  match c with AddressBookSet _ _ => true | _ => false end.

Definition is_AddObservedAddr (c : Call) : bool :=
  match c with AddObservedAddr _ => true | _ => false end.

Definition is_StreamSink (c : Call) : bool :=
  match c with StreamSink _ _ => true | _ => false end.

(** The number of observed addresses the address manager holds. *)
Definition observed_count w : nat := length (getObservedAddrs (addressManager w)).

(** [w'] differs from [w] by writes to the peer store and by calls that
    are no [StreamSink] and no [AddObservedAddr]: the service's flag, the
    registrar and the address manager are the same. *)
Definition store_only w w' : Prop :=
  started w' = started w /\ registrar w' = registrar w
  /\ addressManager w' = addressManager w
  /\ exists tr, calls w' = calls w ++ tr
                /\ List.filter is_StreamSink tr = []
                /\ List.filter is_AddObservedAddr tr = [].

(** The same, where the address manager may have changed. *)
Definition quiet w w' : Prop :=
  started w' = started w /\ registrar w' = registrar w
  /\ exists tr, calls w' = calls w ++ tr /\ List.filter is_StreamSink tr = [].

End Reconciler.

(** ** Scenarios *)

Module Scenario.
Import Testbed.
#[local] Existing Instance consts.
#[local] Existing Instance peerStore_in_memory.
#[local] Existing Instance addressManager_in_memory.

Definition keyA : Uint8Array := [Byte.x41].
Definition keyB : Uint8Array := [Byte.x42].
Definition keyZ : Uint8Array := [Byte.x5a].
Definition peerA : PeerId := mkPeerId keyA (Some keyA).
Definition peerB : PeerId := mkPeerId keyB (Some keyB).
Definition peerZ : PeerId := mkPeerId keyZ (Some keyZ).

(** [/ip4/10.0.0.1/tcp/4001], [/ip4/10.0.0.2/tcp/4001] and
    [/ip4/192.168.0.7/tcp/4001] in binary form, and two bytes that are no
    multiaddr. *)
Definition addr1 : Uint8Array :=
  [Byte.x04; Byte.x0a; Byte.x00; Byte.x00; Byte.x01; Byte.x06; Byte.x0f; Byte.xa1].
Definition addr2 : Uint8Array :=
  [Byte.x04; Byte.x0a; Byte.x00; Byte.x00; Byte.x02; Byte.x06; Byte.x0f; Byte.xa1].
Definition observedB : Uint8Array :=
  [Byte.x04; Byte.xc0; Byte.xa8; Byte.x00; Byte.x07; Byte.x06; Byte.x0f; Byte.xa1].
Definition garbage : Uint8Array := [Byte.xff; Byte.xff].

(** A marshalled envelope signed by [key], sequence number 1, over [addr]. *)
Definition envelope_bytes (key : byte) (addr : Uint8Array) : Uint8Array :=
  key :: Byte.x01 :: Byte.x01 :: addr.

(** The local node [peerB], with the given cap on observed addresses. *)
Definition serviceB (cap : option nat) : IdentifyService :=
  mkIdentifyService peerB
    (mkIdentifyServiceInit "ipfs" (mkHostProperties "js-libp2p/0.43.2") 30000 None 1 1 1 1 cap).

(** A connection to [peerA] on which a new stream delivers [bytes]. *)
Definition connA_with (bytes : Uint8Array) : Connection :=
  mkConnection "conn-A" peerA (mkMultiaddr addr1) (fun _ => inr (inr bytes)).

Definition connA : Connection := connA_with (lp.encode [Byte.x0a]).

Definition world0 : World Store Addresses :=
  mkWorld [] (mkAddresses [] []) ∅ [connA] false [].

Definition legacy_message (key : option Uint8Array) (listenAddrs : list Uint8Array)
  : Identify.t :=
  Identify.mk (Some "ipfs/0.1.0") (Some "a/1") key listenAddrs (Some observedB)
              ["/chat/1"; "/ping/1"] None.

Definition signed_message (signer : byte) : Identify.t :=
  Identify.mk (Some "ipfs/0.1.0") (Some "a/1") (Some keyA) [addr2] (Some observedB)
              ["/chat/1"; "/ping/1"] (Some (envelope_bytes signer addr1)).

(** The envelope inside [signed_message signer]. *)
Definition envelope_of (signer : byte) : RecordEnvelope.t :=
  RecordEnvelope.mk (mkPeerId [signer] (Some [signer])) [] (Byte.x01 :: addr1) [Byte.x01].

(** A push arriving on the connection to [peerA]. *)
Definition pushA : IncomingStreamData :=
  mkIncomingStreamData connA (inr (lp.encode [Byte.x0a])).

(** The codec that decodes every frame to [message]. *)
Definition always (message : Identify.t) : Libraries :=
  libraries (fun _ => inr message).

(** Two peers that report two distinct observed addresses for the local
    node: [peerA] answers with the frame [x0a], [peerZ] with [x0b]. *)
Definition observedB' : Uint8Array :=
  [Byte.x04; Byte.xc0; Byte.xa8; Byte.x00; Byte.x08; Byte.x06; Byte.x0f; Byte.xa1].

Definition connZ : Connection :=
  mkConnection "conn-Z" peerZ (mkMultiaddr addr2) (fun _ => inr (inr (lp.encode [Byte.x0b]))).

Definition two_observers : Libraries :=
  libraries (fun frame =>
    match frame with
    | [Byte.x0a] =>
        inr (Identify.mk None None (Some keyA) [addr1] (Some observedB) ["/ping/1"] None)
    | [Byte.x0b] =>
        inr (Identify.mk None None (Some keyZ) [addr2] (Some observedB') ["/ping/1"] None)
    | _ => inl (mkError "index out of range" None)
    end).


(** The local node under the peer id [peerA]. *)
Definition serviceA : IdentifyService :=
  mkIdentifyService peerA (init (serviceB None)).

End Scenario.

(** ** Reading the calls of a run *)

Section Observations.
Context {consts : Consts} {libs : Libraries} {PS AM : Type}
        {store : PeerStore PS} {manager : AddressManager AM}.
Local Abbreviation World := (World PS AM).
Implicit Types (self : IdentifyService) (conn : Connection) (w : World)
               (id : PeerId) (message : Identify.t).

Definition is_ProtoBookSet (c : Call) : bool :=
  match c with ProtoBookSet _ _ => true | _ => false end.

Definition is_MetadataBookSetValue (c : Call) : bool :=
  match c with MetadataBookSetValue _ _ _ => true | _ => false end.

Definition is_ConsumePeerRecord (c : Call) : bool :=
  match c with ConsumePeerRecord _ => true | _ => false end.

(** The calls on a connection or one of its streams. *)
Definition is_stream_call (c : Call) : bool :=
  match c with
  | NewStream _ _ | StreamSink _ _ | StreamClose _ => true
  | _ => false
  end.

(** The peer a call on the peer store is about: the peer id passed to a
    book, or the peer id of the envelope offered to the address book. *)
Definition call_peer (c : Call) : option PeerId :=
  match c with
  | AddressBookSet id _ | ProtoBookSet id _ | MetadataBookSetValue id _ _ => Some id
  | ConsumePeerRecord envelope => Some (RecordEnvelope.peerId envelope)
  | _ => None
  end.

(** The message [push] encodes in the world [w]. *)
Definition push_message self w : Identify.t :=
  Identify.mk None None None
    (map bytes (getAddresses (addressManager w)))
    None
    (protoBook_get (peerId self) (peerStore w))
    (addressBook_getRawEnvelope (peerId self) (peerStore w)).

(** The calls of [push] on one connection, for the frame it writes. *)
Definition push_calls self (frame : Uint8Array) (c : Connection) : list Call :=
  match newStream c [identifyPushProtocolStr self] with
  | inl _ => [NewStream (conn_id c) [identifyPushProtocolStr self]]
  | inr _ => [NewStream (conn_id c) [identifyPushProtocolStr self];
              StreamSink (conn_id c) frame;
              StreamClose (conn_id c)]
  end.

(** The listen addresses [_handleIdentify] advertises in the world [w]. *)
Definition advertised w : list Multiaddr :=
  map (fun ma => decapsulateCode ma (protocols_code "p2p"))
      (getAddresses (addressManager w)).

(** The message [_handleIdentify] encodes for the peer data [peerData], the
    advertised addresses [multiaddrs] and the signed peer record
    [signedPeerRecord]. *)
Definition response self (data : IncomingStreamData) (peerData : Peer)
           (multiaddrs : list Multiaddr) (signedPeerRecord : option Uint8Array)
  : Identify.t :=
  Identify.mk (Some (host_protocolVersion self))
              (Some (host_agentVersion self))
              (Some (default [] (publicKey (peerId self))))
              (map bytes multiaddrs)
              (Some (bytes (remoteAddr (connection data))))
              (peer_protocols peerData)
              signedPeerRecord.

(** The world after a handler did nothing but close its stream. *)
Definition only_closed (data : IncomingStreamData) w : World :=
  record (StreamClose (conn_id (connection data))) w.

(** What a call of [_handlePush] may be: the closing of the stream, an
    envelope offered to the address book, or addresses or protocols set for
    the peer [id]. *)
Definition push_write_for id (c : Call) : Prop :=
  match c with
  | StreamClose _ | ConsumePeerRecord _ => True
  | AddressBookSet id' _ | ProtoBookSet id' _ => id' = id
  | _ => False
  end.

End Observations.

(** Worlds for the responder and for the pushes. *)
Module Deployment.
Import Testbed Scenario.
#[local] Existing Instance consts.
#[local] Existing Instance peerStore_in_memory.
#[local] Existing Instance addressManager_in_memory.

(** A peer store that knows [peerA], which supports the push protocol, and
    [peerZ], which does not. *)
Definition known_peers : Store :=
  [(keyA, mkEntry [] ["/ipfs/id/push/1.0.0"] [] None None);
   (keyZ, mkEntry [] ["/ping/1"] [] None None)].

(** A peer store that knows [peerA] alone. *)
Definition peerA_alone : Store :=
  [(keyA, mkEntry [] ["/ipfs/id/push/1.0.0"] [] None None)].

(** A started node that listens on [addr2], connected to [peerA] and to
    [peerZ], over the peer store [s]. *)
Definition running (s : Store) : World Store Addresses :=
  mkWorld s (mkAddresses [mkMultiaddr addr2] []) ∅ [connA; connZ] true [].

(** The peer data the peer store [s] has for the remote peer of a
    connection. *)
Definition peers_of (s : Store) (c : Connection) : Peer :=
  mkPeer (protos (entry (remotePeer c) s)) (rawEnvelope (entry (remotePeer c) s)).

(** A node that listens on [addr2] and is not started. *)
Definition listening : World Store Addresses :=
  mkWorld [] (mkAddresses [mkMultiaddr addr2] []) ∅ [connA] false [].

(** A message whose observed address is no multiaddr. *)
Definition message_with_garbage_observedAddr : Identify.t :=
  Identify.mk (Some "ipfs/0.1.0") (Some "a/1") (Some keyA) [addr1] (Some garbage)
              ["/chat/1"; "/ping/1"] None.

(** The response of the node [serviceB None] to a request on the connection
    to [peerA], when it listens nowhere and has no protocols stored. *)
Definition responseB : Identify.t :=
  Identify.mk (Some "ipfs/0.1.0") (Some "js-libp2p/0.43.2") (Some keyB) []
              (Some addr1) [] None.

End Deployment.

(** * Properties *)

(** ** Framing: a varint that was written is read back *)

Section Framing.
Import lp.

Lemma to_N_byte_of_N (n : N) : (n < 256)%N -> Byte.to_N (byte_of_N n) = n.
Proof.
  intros Hn. unfold byte_of_N.
  destruct (Byte.of_N n) as [b|] eqn:E.
  - by apply Byte.to_of_N.
  - apply Byte.of_N_None_iff in E. lia.
Qed.

Lemma read_varint_last (v : N) (rest : Uint8Array) :
  (v < 128)%N -> read_varint (byte_of_N v :: rest) = Some (v, rest).
Proof.
  intros Hv. cbn [read_varint]. rewrite to_N_byte_of_N by lia.
  destruct (N.ltb_spec v 128); [done | lia].
Qed.

Lemma read_varint_more (v : N) (rest : Uint8Array) :
  (v < 128)%N ->
  read_varint (byte_of_N (v + 128) :: rest) =
  match read_varint rest with
  | Some (hi, rest') => Some (v + 128 * hi, rest')%N
  | None => None
  end.
Proof.
  intros Hv. cbn [read_varint]. rewrite to_N_byte_of_N by lia.
  destruct (N.ltb_spec (v + 128) 128); [lia|].
  replace (v + 128 - 128)%N with v by lia. done.
Qed.

Lemma read_varint_encode_fuel (fuel : nat) :
  forall (n : N) (rest : Uint8Array),
    (n < 128 ^ N.of_nat (S fuel))%N ->
    read_varint (encode_varint_fuel fuel n ++ rest) = Some (n, rest).
Proof.
  induction fuel as [|fuel IH]; intros n rest Hn.
  - change (128 ^ N.of_nat 1)%N with 128%N in Hn.
    cbn [encode_varint_fuel app]. rewrite N.mod_small by lia.
    by apply read_varint_last.
  - cbn [encode_varint_fuel].
    destruct (N.ltb_spec n 128) as [Hlt|Hge].
    + by apply read_varint_last.
    + assert (Hm : (n mod 128 < 128)%N) by (apply N.mod_lt; lia).
      cbn [app]. rewrite read_varint_more by done.
      rewrite IH.
      * f_equal. f_equal. pose proof (N.div_mod n 128). lia.
      * replace (N.of_nat (S (S fuel))) with (1 + N.of_nat (S fuel))%N in Hn by lia.
        rewrite N.pow_add_r in Hn. change (128 ^ 1)%N with 128%N in Hn.
        apply N.Div0.div_lt_upper_bound. lia.
Qed.

Lemma read_varint_encode (n : N) (rest : Uint8Array) :
  read_varint (encode_varint n ++ rest) = Some (n, rest).
Proof.
  apply read_varint_encode_fuel.
  destruct n as [|p]; [done|].
  pose proof (N.size_gt (N.pos p)) as Hs.
  eapply N.lt_le_trans; [exact Hs|].
  rewrite Nat2N.inj_succ, N2Nat.id, N.pow_succ_r'.
  assert (2 ^ N.size (N.pos p) <= 128 ^ N.size (N.pos p))%N
    by (apply N.pow_le_mono_l; lia).
  assert (0 < 128 ^ N.size (N.pos p))%N
    by (apply N.neq_0_lt_0, N.pow_nonzero; lia).
  lia.
Qed.

(** A frame that declares more than the cap is refused before its payload
    is taken. *)
Lemma decode_one_too_large (len max_len : N) (payload : Uint8Array) :
  (max_len < len)%N ->
  decode_one (encode_varint len ++ payload) max_len =
  mkRead (inl (CodeError "message length too long" codes.ERR_MESSAGE_TOO_LARGE)) payload.
Proof.
  intros Hlen. unfold decode_one. rewrite read_varint_encode.
  destruct (N.ltb_spec max_len len); [done | lia].
Qed.

(** A complete frame within the cap is read back. *)
Lemma decode_one_encode (msg : Uint8Array) (max_len : N) :
  (N.of_nat (length msg) <= max_len)%N ->
  decode_one (encode msg) max_len = mkRead (inr (Some msg)) [].
Proof.
  intros Hlen. unfold decode_one, encode. rewrite read_varint_encode.
  destruct (N.ltb_spec max_len (N.of_nat (length msg))); [lia|].
  rewrite N.ltb_irrefl, Nat2N.id.
  by rewrite take_ge, drop_ge by lia.
Qed.

End Framing.

(** ** The asynchronous code computes the writes of the reconciler *)

Section Refinement.
Context {consts : Consts} {libs : Libraries} {PS AM : Type}
        {store : PeerStore PS} {manager : AddressManager AM}.
Local Abbreviation M := (M PS AM).
Local Abbreviation World := (World PS AM).
Implicit Types (self : IdentifyService) (conn : Connection) (w : World)
               (id : PeerId) (message : Identify.t).
Local Open Scope async_scope.

(** *** Stepping through [bind] and [try]/[catch] *)

Lemma bind_ok {A B} (m : M A) (k : A -> M B) w a w' :
  m w = (inr a, w') -> bind m k w = k a w'.
Proof. intros E. unfold bind. by rewrite E. Qed.

Lemma bind_throw {A B} (m : M A) (k : A -> M B) w e w' :
  m w = (inl e, w') -> bind m k w = (inl e, w').
Proof. intros E. unfold bind. by rewrite E. Qed.

Lemma try_catch_ok {A} (m : M A) (h : Error -> M A) w a w' :
  m w = (inr a, w') -> try_catch m h w = (inr a, w').
Proof. intros E. unfold try_catch. by rewrite E. Qed.

Lemma try_catch_throw {A} (m : M A) (h : Error -> M A) w e w' r :
  m w = (inl e, w') -> h e w' = r -> try_catch m h w = r.
Proof. intros E <-. unfold try_catch. by rewrite E. Qed.

Lemma calls_of_app {A} (m : M A) w (tr : list Call) :
  calls (m w).2 = calls w ++ tr -> calls_of m w = tr.
Proof. intros E. unfold calls_of. rewrite E. apply drop_app_length. Qed.

(** *** [_identify] *)

Lemma _identify_run self conn w :
  _identify self conn w =
  match newStream conn [identifyProtocolStr self] with
  | inl e => (inl e, record (NewStream (conn_id conn) [identifyProtocolStr self]) w)
  | inr stream => (received self stream, opened self conn w)
  end.
Proof.
  unfold _identify, received, opened, connection_newStream, stream_close,
    bind, finally, lift, ret, throw.
  destruct (newStream conn _) as [e|[e|source]]; [done|done|].
  destruct (lp.outcome _) as [e|[data|]]; try done.
  by destruct (Identify_decode data).
Qed.

Lemma _identify_inv self conn w message :
  (_identify self conn w).1 = inr message ->
  exists stream, newStream conn [identifyProtocolStr self] = inr stream
                 /\ received self stream = inr message.
Proof.
  rewrite _identify_run. destruct (newStream conn _) as [e|stream]; simpl; [done|].
  intros E. by exists stream.
Qed.

Lemma _identify_ok self conn w message :
  (_identify self conn w).1 = inr message ->
  _identify self conn w = (inr message, opened self conn w).
Proof.
  intros Hm. destruct (_identify_inv _ _ _ _ Hm) as (stream & Hs & Hrec).
  by rewrite _identify_run, Hs, Hrec.
Qed.

(** *** The steps of the reconciler *)

Lemma store_protocols_run id message w :
  peerStore_protoBook_set id (Identify.protocols message) w
  = (inr tt, store_protocols id message w).
Proof. done. Qed.

Lemma store_metadata_run id key v w :
  setValue_if_present id key v w = (inr tt, store_metadata id key v w).
Proof. by destruct v. Qed.

Lemma store_listenAddrs_run id message w :
  try_catch
    (addrs <- lift (map_throwing multiaddr (Identify.listenAddrs message)) ;;
     peerStore_addressBook_set id addrs)
    (fun err => ret tt) w
  = (inr tt, store_listenAddrs id message w).
Proof.
  unfold try_catch, bind, lift, store_listenAddrs.
  by destruct (map_throwing multiaddr (Identify.listenAddrs message)).
Qed.

Lemma store_identity_run {A} id message (k : M A) w :
  (peerStore_protoBook_set id (Identify.protocols message) ;;
   setValue_if_present id "AgentVersion" (Identify.agentVersion message) ;;
   setValue_if_present id "ProtocolVersion" (Identify.protocolVersion message) ;;
   k) w
  = k (store_identity id message w).
Proof.
  erewrite bind_ok by apply store_protocols_run.
  erewrite bind_ok by apply store_metadata_run.
  erewrite bind_ok by apply store_metadata_run.
  done.
Qed.

Lemma learn_observedAddr_run self message w :
  match getCleanMultiaddr (Identify.observedAddr message) with
  | Some addr =>
      observed <- gets (fun w => length (getObservedAddrs (addressManager w))) ;;
      if below observed (maxObservedAddresses (init self))
      then addressManager_addObservedAddr addr
      else ret tt
  | None => ret tt
  end w
  = (inr tt, learn_observedAddr self message w).
Proof.
  unfold learn_observedAddr.
  destruct (getCleanMultiaddr _); [|done].
  unfold bind, gets. by destruct (below _ _).
Qed.

Lemma legacy_run self id message w :
  (try_catch
     (addrs <- lift (map_throwing multiaddr (Identify.listenAddrs message)) ;;
      peerStore_addressBook_set id addrs)
     (fun err => ret tt) ;;
   peerStore_protoBook_set id (Identify.protocols message) ;;
   setValue_if_present id "AgentVersion" (Identify.agentVersion message) ;;
   setValue_if_present id "ProtocolVersion" (Identify.protocolVersion message) ;;
   match getCleanMultiaddr (Identify.observedAddr message) with
   | Some addr =>
       observed <- gets (fun w => length (getObservedAddrs (addressManager w))) ;;
       if below observed (maxObservedAddresses (init self))
       then addressManager_addObservedAddr addr
       else ret tt
   | None => ret tt
   end) w
  = (inr tt, legacy self id message w).
Proof.
  erewrite bind_ok by apply store_listenAddrs_run.
  rewrite store_identity_run. apply learn_observedAddr_run.
Qed.

(** *** [identify], once the message passed the three checks *)

Lemma identify_run self conn w message key id :
  (_identify self conn w).1 = inr message ->
  Identify.publicKey message = Some key ->
  peerIdFromKeys key = inr id ->
  equals (remotePeer conn) id = true ->
  equals (peerId self) id = false ->
  identify self conn w = (inr tt, reconcile self id message (opened self conn w)).
Proof.
  intros Hm Hk Hid Hr Hl.
  unfold identify. erewrite bind_ok by (by apply _identify_ok).
  rewrite Hk. erewrite bind_ok by (unfold lift; by rewrite Hid).
  rewrite Hr, Hl. cbn [negb].
  generalize (opened self conn w). intros w1.
  unfold reconcile, verified_envelope.
  destruct (Identify.signedPeerRecord message) as [spr|].
  - destruct (openAndCertify spr PeerRecord_DOMAIN) as [e|envelope] eqn:Henv.
    + rewrite (bind_ok _ _ w1 false w1); [apply legacy_run|].
      apply try_catch_throw with (e := e) (w' := w1); [by apply bind_throw | done].
    + destruct (equals (RecordEnvelope.peerId envelope) id) eqn:Hp.
      * destruct (addressBook_consumePeerRecord envelope (peerStore w1))
          as [accepted ps'] eqn:Hc.
        cbn [fst]. destruct accepted.
        -- rewrite (bind_ok _ _ w1 true
                      (store_identity id message (offer_envelope envelope w1)));
             [reflexivity|].
           apply try_catch_ok. erewrite bind_ok by reflexivity.
           rewrite Hp. cbn [negb].
           erewrite bind_ok by reflexivity.
           unfold offer_envelope. rewrite Hc. cbn [fst snd].
           by rewrite store_identity_run.
        -- rewrite (bind_ok _ _ w1 false (offer_envelope envelope w1));
             [apply legacy_run|].
           apply try_catch_ok. erewrite bind_ok by reflexivity.
           rewrite Hp. cbn [negb].
           erewrite bind_ok by reflexivity.
           unfold offer_envelope. rewrite Hc. done.
      * rewrite (bind_ok _ _ w1 false w1); [apply legacy_run|].
        eapply try_catch_throw; [|reflexivity].
        erewrite bind_ok by reflexivity.
        rewrite Hp. cbn [negb]. reflexivity.
  - rewrite (bind_ok _ _ w1 false w1) by reflexivity. apply legacy_run.
Qed.

(** Every way [identify] can end. *)
Lemma identify_cases self conn w :
  (exists e, identify self conn w
             = (inl e, record (NewStream (conn_id conn) [identifyProtocolStr self]) w))
  \/ (exists e, identify self conn w = (inl e, opened self conn w))
  \/ (exists id message, identify self conn w
                         = (inr tt, reconcile self id message (opened self conn w))).
Proof.
  destruct (_identify self conn w) as [[e|message] w1] eqn:E.
  - unfold identify. erewrite bind_throw by exact E.
    rewrite _identify_run in E.
    destruct (newStream conn _); inversion E; subst; eauto.
  - assert (Hm : (_identify self conn w).1 = inr message) by (by rewrite E).
    destruct (Identify.publicKey message) as [key|] eqn:Hk.
    2:{ right; left. unfold identify. erewrite bind_ok by (by apply _identify_ok).
        rewrite Hk. unfold throw. eauto. }
    destruct (peerIdFromKeys key) as [e|id] eqn:Hid.
    { right; left. unfold identify. erewrite bind_ok by (by apply _identify_ok).
      rewrite Hk. erewrite bind_throw by (unfold lift; by rewrite Hid). eauto. }
    destruct (equals (remotePeer conn) id) eqn:Hr.
    2:{ right; left. unfold identify. erewrite bind_ok by (by apply _identify_ok).
        rewrite Hk. erewrite bind_ok by (unfold lift; by rewrite Hid).
        rewrite Hr. unfold throw. cbn [negb]. eauto. }
    destruct (equals (peerId self) id) eqn:Hl.
    { right; left. unfold identify. erewrite bind_ok by (by apply _identify_ok).
      rewrite Hk. erewrite bind_ok by (unfold lift; by rewrite Hid).
      rewrite Hr, Hl. unfold throw. cbn [negb]. eauto. }
    right; right. exists id, message. by eapply identify_run.
Qed.

(** *** [_handlePush] *)

Lemma read_push_run self data w :
  read_push self data w
  = (inr (pushed self data), record (StreamClose (conn_id (connection data))) w).
Proof.
  unfold read_push, pushed, finally, try_catch, bind, lift, ret, stream_close.
  destruct (stream data) as [e|source]; [done|].
  destruct (lp.outcome _) as [e|[d|]]; try done.
  by destruct (Identify_decode d).
Qed.

Lemma legacy_push_run id message w :
  (try_catch
     (addrs <- lift (map_throwing multiaddr (Identify.listenAddrs message)) ;;
      peerStore_addressBook_set id addrs)
     (fun err => ret tt) ;;
   try_catch (peerStore_protoBook_set id (Identify.protocols message))
             (fun err => ret tt)) w
  = (inr tt, legacy_push id message w).
Proof. by erewrite bind_ok by apply store_listenAddrs_run. Qed.

Lemma _handlePush_run self data w :
  _handlePush self data w =
  (inr tt,
   let closed := record (StreamClose (conn_id (connection data))) w in
   match pushed self data with
   | Some message =>
       if equals (peerId self) (remotePeer (connection data)) then closed
       else reconcile_push (remotePeer (connection data)) message closed
   | None => closed
   end).
Proof.
  unfold _handlePush. erewrite bind_ok by apply read_push_run.
  generalize (record (StreamClose (conn_id (connection data))) w). intros w1.
  cbv zeta.
  destruct (pushed self data) as [message|]; [|done].
  destruct (equals (peerId self) (remotePeer (connection data))); [done|].
  set (id := remotePeer (connection data)).
  unfold reconcile_push, opened_envelope.
  destruct (Identify.signedPeerRecord message) as [spr|].
  - destruct (openAndCertify spr PeerRecord_DOMAIN) as [e|envelope] eqn:Henv.
    + rewrite (bind_ok _ _ w1 false w1); [apply legacy_push_run|].
      apply try_catch_throw with (e := e) (w' := w1); [by apply bind_throw | done].
    + destruct (addressBook_consumePeerRecord envelope (peerStore w1))
        as [accepted ps'] eqn:Hc.
      cbn [fst]. destruct accepted.
      * rewrite (bind_ok _ _ w1 true
                   (store_protocols id message (offer_envelope envelope w1)));
          [reflexivity|].
        apply try_catch_ok. erewrite bind_ok by reflexivity.
        erewrite bind_ok by reflexivity.
        unfold offer_envelope. rewrite Hc. cbn [fst snd].
        by erewrite bind_ok by apply store_protocols_run.
      * rewrite (bind_ok _ _ w1 false (offer_envelope envelope w1));
          [apply legacy_push_run|].
        apply try_catch_ok. erewrite bind_ok by reflexivity.
        erewrite bind_ok by reflexivity.
        unfold offer_envelope. rewrite Hc. done.
  - rewrite (bind_ok _ _ w1 false w1) by reflexivity. apply legacy_push_run.
Qed.

(** *** The calls of each step *)

Lemma calls_offer_envelope envelope w :
  calls (offer_envelope envelope w) = calls w ++ [ConsumePeerRecord envelope].
Proof. done. Qed.

Lemma calls_store_protocols id message w :
  calls (store_protocols id message w)
  = calls w ++ [ProtoBookSet id (Identify.protocols message)].
Proof. done. Qed.

Lemma calls_store_metadata id key v w :
  calls (store_metadata id key v w) = calls w ++ metadata_calls id key v.
Proof. destruct v; simpl; [done|]. by rewrite app_nil_r. Qed.

Lemma calls_store_listenAddrs id message w :
  calls (store_listenAddrs id message w) = calls w ++ listenAddrs_calls id message.
Proof.
  unfold store_listenAddrs, listenAddrs_calls.
  destruct (map_throwing _ _); simpl; [|done]. by rewrite app_nil_r.
Qed.

Lemma calls_store_identity id message w :
  calls (store_identity id message w) = calls w ++ identity_calls id message.
Proof.
  unfold store_identity, identity_calls.
  rewrite !calls_store_metadata, calls_store_protocols.
  by rewrite <- !app_assoc.
Qed.

Lemma addressManager_store_metadata id key v w :
  addressManager (store_metadata id key v w) = addressManager w.
Proof. by destruct v. Qed.

Lemma addressManager_store_listenAddrs id message w :
  addressManager (store_listenAddrs id message w) = addressManager w.
Proof. unfold store_listenAddrs. by destruct (map_throwing _ _). Qed.

Lemma addressManager_store_identity id message w :
  addressManager (store_identity id message w) = addressManager w.
Proof. unfold store_identity. by rewrite !addressManager_store_metadata. Qed.

Lemma calls_learn_observedAddr self message w :
  calls (learn_observedAddr self message w)
  = calls w ++ observedAddr_calls self message (addressManager w).
Proof.
  unfold learn_observedAddr, observedAddr_calls.
  destruct (getCleanMultiaddr _); [|by rewrite app_nil_r].
  destruct (below _ _); simpl; [done|]. by rewrite app_nil_r.
Qed.

Lemma calls_legacy self id message w :
  calls (legacy self id message w)
  = calls w ++ legacy_calls self id message (addressManager w).
Proof.
  unfold legacy, legacy_calls.
  rewrite calls_learn_observedAddr, calls_store_identity, calls_store_listenAddrs.
  rewrite addressManager_store_identity, addressManager_store_listenAddrs.
  by rewrite <- !app_assoc.
Qed.

Lemma calls_reconcile self id message w :
  calls (reconcile self id message w)
  = calls w ++ reconcile_calls self id message (peerStore w) (addressManager w).
Proof.
  unfold reconcile, reconcile_calls.
  destruct (verified_envelope message id) as [envelope|]; [|apply calls_legacy].
  destruct (addressBook_consumePeerRecord envelope (peerStore w)).1.
  - rewrite calls_store_identity, calls_offer_envelope. by rewrite <- app_assoc.
  - rewrite calls_legacy, calls_offer_envelope. by rewrite <- app_assoc.
Qed.

Lemma calls_legacy_push id message w :
  calls (legacy_push id message w) = calls w ++ legacy_push_calls id message.
Proof.
  unfold legacy_push, legacy_push_calls.
  rewrite calls_store_protocols, calls_store_listenAddrs. by rewrite <- app_assoc.
Qed.

Lemma calls_reconcile_push id message w :
  calls (reconcile_push id message w)
  = calls w ++ reconcile_push_calls id message (peerStore w).
Proof.
  unfold reconcile_push, reconcile_push_calls.
  destruct (opened_envelope message) as [envelope|]; [|apply calls_legacy_push].
  destruct (addressBook_consumePeerRecord envelope (peerStore w)).1.
  - rewrite calls_store_protocols, calls_offer_envelope. by rewrite <- app_assoc.
  - rewrite calls_legacy_push, calls_offer_envelope. by rewrite <- app_assoc.
Qed.

(** The calls of a successful [identify]. *)
Lemma identify_calls self conn w message key id :
  (_identify self conn w).1 = inr message ->
  Identify.publicKey message = Some key ->
  peerIdFromKeys key = inr id ->
  equals (remotePeer conn) id = true ->
  equals (peerId self) id = false ->
  calls_of (identify self conn) w
  = NewStream (conn_id conn) [identifyProtocolStr self]
      :: StreamClose (conn_id conn)
      :: reconcile_calls self id message (peerStore w) (addressManager w).
Proof.
  intros Hm Hk Hid Hr Hl. apply calls_of_app.
  rewrite (identify_run _ _ _ _ _ _ Hm Hk Hid Hr Hl). cbn [snd].
  rewrite calls_reconcile. unfold opened. cbn [calls record peerStore addressManager].
  by rewrite <- !app_assoc.
Qed.

(** The calls of a push that was read. *)
Lemma _handlePush_calls self data w message :
  pushed self data = Some message ->
  equals (peerId self) (remotePeer (connection data)) = false ->
  calls_of (_handlePush self data) w
  = StreamClose (conn_id (connection data))
      :: reconcile_push_calls (remotePeer (connection data)) message (peerStore w).
Proof.
  intros Hp Hl. apply calls_of_app.
  rewrite _handlePush_run. cbn [snd]. cbv zeta. rewrite Hp, Hl.
  rewrite calls_reconcile_push. cbn [calls record peerStore].
  by rewrite <- !app_assoc.
Qed.

(** *** Parsing the listen addresses *)

Lemma map_throwing_inr {A B} (f : A -> Result B) (l : list A) (ys : list B) :
  map_throwing f l = inr ys <-> Forall2 (fun x y => f x = inr y) l ys.
Proof.
  revert ys. induction l as [|x l IH]; intros ys; simpl.
  - split.
    + intros [= <-]. constructor.
    + intros Hf. by inversion Hf.
  - destruct (f x) as [e|y] eqn:Hx.
    + split; [done|]. intros Hf. inversion Hf; subst. congruence.
    + destruct (map_throwing f l) as [e|ys'] eqn:Hl.
      * split; [done|]. intros Hf. inversion Hf as [|? y' ? ys'' Hy Hrest]; subst.
        apply IH in Hrest. done.
      * split.
        -- intros [= <-]. constructor; [done|]. by apply IH.
        -- intros Hf. inversion Hf as [|? y' ? ys'' Hy Hrest]; subst.
           apply IH in Hrest. congruence.
Qed.

Lemma map_throwing_inl {A B} (f : A -> Result B) (l : list A) :
  Exists (fun x => exists e, f x = inl e) l -> exists e, map_throwing f l = inl e.
Proof.
  induction 1 as [x l [e He]|x l Hex IH]; simpl.
  - rewrite He. eauto.
  - destruct (f x) as [e|y]; [eauto|].
    destruct IH as [e ->]. eauto.
Qed.

Lemma listenAddrs_calls_parsed id message addrs :
  Forall2 (fun b ma => multiaddr b = inr ma) (Identify.listenAddrs message) addrs ->
  listenAddrs_calls id message = [AddressBookSet id addrs].
Proof.
  intros Hf. apply map_throwing_inr in Hf. unfold listenAddrs_calls. by rewrite Hf.
Qed.

Lemma listenAddrs_calls_unparseable id message :
  Exists (fun b => exists e, multiaddr b = inl e) (Identify.listenAddrs message) ->
  listenAddrs_calls id message = [].
Proof.
  intros Hex. apply map_throwing_inl in Hex as [e He].
  unfold listenAddrs_calls. by rewrite He.
Qed.

Lemma filter_AddressBookSet_metadata id key v :
  List.filter is_AddressBookSet (metadata_calls id key v) = [].
Proof. by destruct v. Qed.

Lemma filter_AddressBookSet_identity id message :
  List.filter is_AddressBookSet (identity_calls id message) = [].
Proof.
  unfold identity_calls. cbn [List.filter is_AddressBookSet].
  by rewrite List.filter_app, !filter_AddressBookSet_metadata.
Qed.

Lemma filter_AddressBookSet_observedAddr self message am :
  List.filter is_AddressBookSet (observedAddr_calls self message am) = [].
Proof.
  unfold observedAddr_calls. destruct (getCleanMultiaddr _); [|done].
  by destruct (below _ _).
Qed.

Lemma filter_AddressBookSet_legacy self id message am :
  List.filter is_AddressBookSet (legacy_calls self id message am)
  = List.filter is_AddressBookSet (listenAddrs_calls id message).
Proof.
  unfold legacy_calls.
  rewrite !List.filter_app, filter_AddressBookSet_identity,
    filter_AddressBookSet_observedAddr.
  by rewrite !app_nil_r.
Qed.

End Refinement.

(** ** What an exchange leaves untouched, and the bound on observed addresses *)

Section Frame.
Context {consts : Consts} {libs : Libraries} {PS AM : Type}
        {store : PeerStore PS} {manager : AddressManager AM}.
Local Abbreviation World := (World PS AM).
Implicit Types (self : IdentifyService) (conn : Connection) (w : World)
               (id : PeerId) (message : Identify.t).

Lemma store_only_refl w : store_only w w.
Proof. repeat split. exists []. by rewrite app_nil_r. Qed.

Lemma store_only_trans w1 w2 w3 : store_only w1 w2 -> store_only w2 w3 -> store_only w1 w3.
Proof.
  intros (Hs1 & Hr1 & Ha1 & tr1 & Hc1 & Hf1 & Hg1) (Hs2 & Hr2 & Ha2 & tr2 & Hc2 & Hf2 & Hg2).
  repeat split; try congruence.
  exists (tr1 ++ tr2). rewrite Hc2, Hc1, <- app_assoc, !List.filter_app, Hf1, Hf2, Hg1, Hg2.
  done.
Qed.

Lemma store_only_quiet w w' : store_only w w' -> quiet w w'.
Proof. intros (? & ? & ? & tr & ? & ? & ?). repeat split; eauto. Qed.

Lemma quiet_refl w : quiet w w.
Proof. apply store_only_quiet, store_only_refl. Qed.

Lemma quiet_trans w1 w2 w3 : quiet w1 w2 -> quiet w2 w3 -> quiet w1 w3.
Proof.
  intros (Hs1 & Hr1 & tr1 & Hc1 & Hf1) (Hs2 & Hr2 & tr2 & Hc2 & Hf2).
  repeat split; try congruence.
  exists (tr1 ++ tr2). by rewrite Hc2, Hc1, <- app_assoc, !List.filter_app, Hf1, Hf2.
Qed.

Lemma store_only_step c ps w :
  is_StreamSink c = false -> is_AddObservedAddr c = false ->
  store_only w (with_peerStore ps (record c w)).
Proof.
  intros Hc Hd. repeat split. exists [c]. cbn. by rewrite Hc, Hd.
Qed.

Lemma store_only_record c w :
  is_StreamSink c = false -> is_AddObservedAddr c = false -> store_only w (record c w).
Proof. intros Hc Hd. repeat split. exists [c]. cbn. by rewrite Hc, Hd. Qed.

Lemma store_only_opened self conn w : store_only w (opened self conn w).
Proof.
  eapply store_only_trans; [|by apply store_only_record]. by apply store_only_record.
Qed.

Lemma store_only_offer_envelope envelope w : store_only w (offer_envelope envelope w).
Proof. by apply store_only_step. Qed.

Lemma store_only_store_protocols id message w : store_only w (store_protocols id message w).
Proof. by apply store_only_step. Qed.

Lemma store_only_store_metadata id key v w : store_only w (store_metadata id key v w).
Proof. destruct v; [by apply store_only_step | apply store_only_refl]. Qed.

Lemma store_only_store_listenAddrs id message w :
  store_only w (store_listenAddrs id message w).
Proof.
  unfold store_listenAddrs.
  destruct (map_throwing _ _); [apply store_only_refl | by apply store_only_step].
Qed.

Lemma store_only_store_identity id message w : store_only w (store_identity id message w).
Proof.
  unfold store_identity.
  eapply store_only_trans; [apply store_only_store_protocols|].
  eapply store_only_trans; apply store_only_store_metadata.
Qed.

Lemma quiet_learn_observedAddr self message w : quiet w (learn_observedAddr self message w).
Proof.
  unfold learn_observedAddr.
  destruct (getCleanMultiaddr _) as [addr|]; [|apply quiet_refl].
  destruct (below _ _); [|apply quiet_refl].
  repeat split. by exists [AddObservedAddr addr].
Qed.

Lemma quiet_reconcile self id message w : quiet w (reconcile self id message w).
Proof.
  assert (Hlegacy : forall w1, quiet w1 (legacy self id message w1)).
  { intros w1. unfold legacy.
    eapply quiet_trans; [|apply quiet_learn_observedAddr].
    apply store_only_quiet.
    eapply store_only_trans; [apply store_only_store_listenAddrs|].
    apply store_only_store_identity. }
  unfold reconcile.
  destruct (verified_envelope message id) as [envelope|]; [|apply Hlegacy].
  destruct (addressBook_consumePeerRecord envelope (peerStore w)).1.
  - apply store_only_quiet.
    eapply store_only_trans; [apply store_only_offer_envelope|].
    apply store_only_store_identity.
  - eapply quiet_trans; [|apply Hlegacy].
    apply store_only_quiet, store_only_offer_envelope.
Qed.

(** [identify] changes neither the flag nor the registrar, and writes to
    no stream. *)
Lemma quiet_identify self conn w : quiet w (identify self conn w).2.
Proof.
  destruct (identify_cases self conn w) as [[e E]|[[e E]|(id & message & E)]];
    rewrite E; cbn [snd].
  - by apply store_only_quiet, store_only_record.
  - apply store_only_quiet, store_only_opened.
  - eapply quiet_trans; [|apply quiet_reconcile].
    apply store_only_quiet, store_only_opened.
Qed.

(** *** Observed addresses *)

Lemma observed_count_learn self message w cap :
  maxObservedAddresses (init self) = Some cap ->
  observed_count w <= cap ->
  observed_count (learn_observedAddr self message w) <= cap.
Proof.
  intros Hcap Hle. unfold learn_observedAddr.
  destruct (getCleanMultiaddr _) as [addr|]; [|done].
  destruct (below _ _) eqn:Hb; [|done].
  rewrite Hcap in Hb. cbn in Hb. apply Nat.ltb_lt in Hb.
  unfold observed_count in *. cbn.
  pose proof (addObservedAddr_length addr (addressManager w)). lia.
Qed.

Lemma observed_count_store_only w w' :
  store_only w w' -> observed_count w' = observed_count w.
Proof. intros (_ & _ & Ha & _). unfold observed_count. by rewrite Ha. Qed.

Lemma observed_count_reconcile self id message w cap :
  maxObservedAddresses (init self) = Some cap ->
  observed_count w <= cap ->
  observed_count (reconcile self id message w) <= cap.
Proof.
  intros Hcap Hle.
  assert (Hlegacy : forall w1, observed_count w1 <= cap ->
                               observed_count (legacy self id message w1) <= cap).
  { intros w1 H1. unfold legacy. apply observed_count_learn; [done|].
    rewrite (observed_count_store_only _ _ (store_only_store_identity _ _ _)).
    by rewrite (observed_count_store_only _ _ (store_only_store_listenAddrs _ _ _)). }
  unfold reconcile.
  destruct (verified_envelope message id) as [envelope|]; [|by apply Hlegacy].
  destruct (addressBook_consumePeerRecord envelope (peerStore w)).1.
  - by rewrite (observed_count_store_only _ _ (store_only_store_identity _ _ _)).
  - by apply Hlegacy.
Qed.

Lemma observed_count_identify self conn w cap :
  maxObservedAddresses (init self) = Some cap ->
  observed_count w <= cap ->
  observed_count (identify self conn w).2 <= cap.
Proof.
  intros Hcap Hle.
  destruct (identify_cases self conn w) as [[e E]|[[e E]|(id & message & E)]];
    rewrite E; cbn [snd]; [done|done|].
  by apply observed_count_reconcile.
Qed.

Lemma In_AddObservedAddr_reconcile_calls self id message ps am addr :
  In (AddObservedAddr addr) (reconcile_calls self id message ps am) ->
  below (length (getObservedAddrs am)) (maxObservedAddresses (init self)) = true.
Proof.
  assert (Hidentity : ~ In (AddObservedAddr addr) (identity_calls id message)).
  { unfold identity_calls, metadata_calls. intros [Hin|Hin]; [done|].
    apply in_app_or in Hin as [Hin|Hin].
    - destruct (Identify.agentVersion message); [destruct Hin as [|[]]|]; done.
    - destruct (Identify.protocolVersion message); [destruct Hin as [|[]]|]; done. }
  assert (Hlegacy : In (AddObservedAddr addr) (legacy_calls self id message am) ->
    below (length (getObservedAddrs am)) (maxObservedAddresses (init self)) = true).
  { unfold legacy_calls. intros Hin.
    apply in_app_or in Hin as [Hin|Hin].
    { unfold listenAddrs_calls in Hin.
      destruct (map_throwing _ _); [done|]. by destruct Hin as [|[]]. }
    apply in_app_or in Hin as [Hin|Hin]; [done|].
    unfold observedAddr_calls in Hin.
    destruct (getCleanMultiaddr _); [|done]. by destruct (below _ _). }
  unfold reconcile_calls.
  destruct (verified_envelope message id) as [envelope|]; [|done].
  intros [Hin|Hin]; [done|].
  destruct (addressBook_consumePeerRecord envelope ps).1; [done|]. by apply Hlegacy.
Qed.

Lemma In_AddObservedAddr_identify self conn w addr :
  In (AddObservedAddr addr) (calls_of (identify self conn) w) ->
  below (observed_count w) (maxObservedAddresses (init self)) = true.
Proof.
  destruct (identify_cases self conn w) as [[e E]|[[e E]|(id & message & E)]].
  - rewrite (calls_of_app _ _ [NewStream (conn_id conn) [identifyProtocolStr self]])
      by (by rewrite E).
    by intros [|[]].
  - rewrite (calls_of_app _ _ [NewStream (conn_id conn) [identifyProtocolStr self];
                               StreamClose (conn_id conn)])
      by (rewrite E; cbn; by rewrite <- app_assoc).
    by intros [|[|[]]].
  - rewrite (calls_of_app _ _
               (NewStream (conn_id conn) [identifyProtocolStr self]
                  :: StreamClose (conn_id conn)
                  :: reconcile_calls self id message (peerStore w) (addressManager w))).
    + intros [|[|Hin]]; [done|done|].
      by eapply In_AddObservedAddr_reconcile_calls.
    + rewrite E. cbn [snd]. rewrite calls_reconcile. cbn. by rewrite <- !app_assoc.
Qed.

(** *** Events *)

Lemma dispatchEvent_peer_connect self conn w :
  (dispatchEvent self (peer_connect conn) w).2 = (identify self conn w).2.
Proof.
  cbn. unfold try_catch. by destruct (identify self conn w) as [[e|[]] w'].
Qed.

Lemma pushToPeerStore_stopped self w :
  started w = false -> pushToPeerStore self w = (inr tt, w).
Proof. intros Hs. unfold pushToPeerStore, isStarted, bind, gets. by rewrite Hs. Qed.

Lemma dispatchEvent_change_stopped self evt w :
  started w = false ->
  (forall conn, evt <> peer_connect conn) ->
  dispatchEvent self evt w = (inr tt, w).
Proof.
  intros Hs Hne. destruct evt as [conn|p|p]; cbn.
  - by destruct (Hne conn).
  - destruct (equals _ _); [|done].
    unfold try_catch. by rewrite pushToPeerStore_stopped.
  - destruct (equals _ _); [|done].
    unfold try_catch. by rewrite pushToPeerStore_stopped.
Qed.

Lemma quiet_dispatchEvent_stopped self evt w :
  started w = false -> quiet w (dispatchEvent self evt w).2.
Proof.
  intros Hs. destruct evt as [conn|p|p].
  - rewrite dispatchEvent_peer_connect. apply quiet_identify.
  - rewrite dispatchEvent_change_stopped by done. apply quiet_refl.
  - rewrite dispatchEvent_change_stopped by done. apply quiet_refl.
Qed.

Lemma quiet_dispatchEvents_stopped self evts :
  forall w, started w = false -> quiet w (dispatchEvents self evts w).
Proof.
  induction evts as [|evt evts IH]; intros w Hs; cbn [dispatchEvents].
  - apply quiet_refl.
  - pose proof (quiet_dispatchEvent_stopped self evt w Hs) as Hq.
    eapply quiet_trans; [exact Hq|]. apply IH.
    destruct Hq as (Hs' & _). congruence.
Qed.

End Frame.

(** ** The claims *)

Section Claims.
Context {consts : Consts} {libs : Libraries} {PS AM : Type}
        {store : PeerStore PS} {manager : AddressManager AM}.
Local Abbreviation World := (World PS AM).
Implicit Types (self : IdentifyService) (conn : Connection) (w : World)
               (id : PeerId) (message : Identify.t).

(** C1 (amended).  In an identify exchange whose message passed the checks
    on the public key: when the message carries a signed peer record that
    verifies, whose peer id is the remote peer's and that
    [consumePeerRecord] accepts, [addressBook.set] is not called; in every
    other case, when every entry of [listenAddrs] parses, [addressBook.set]
    is called once, for the remote peer, with the parsed entries in order;
    and when some entry does not parse it is not called. *)
Theorem identify_envelope_or_listenAddrs self conn w message key id :
  (_identify self conn w).1 = inr message ->
  Identify.publicKey message = Some key ->
  peerIdFromKeys key = inr id ->
  equals (remotePeer conn) id = true ->
  equals (peerId self) id = false ->
  let set_calls := List.filter is_AddressBookSet (calls_of (identify self conn) w) in
  (envelope_wins message id (peerStore w) = true -> set_calls = [])
  /\ (envelope_wins message id (peerStore w) = false ->
      forall addrs,
        Forall2 (fun b ma => multiaddr b = inr ma) (Identify.listenAddrs message) addrs ->
        set_calls = [AddressBookSet id addrs])
  /\ (envelope_wins message id (peerStore w) = false ->
      Exists (fun b => exists e, multiaddr b = inl e) (Identify.listenAddrs message) ->
      set_calls = []).
Proof.
  intros Hm Hk Hid Hr Hl set_calls. subst set_calls.
  rewrite (identify_calls _ _ _ _ _ _ Hm Hk Hid Hr Hl).
  cbn [List.filter is_AddressBookSet].
  unfold envelope_wins, reconcile_calls.
  destruct (verified_envelope message id) as [envelope|].
  - cbn [List.filter is_AddressBookSet].
    destruct (addressBook_consumePeerRecord envelope (peerStore w)).1.
    + split; [intros _; apply filter_AddressBookSet_identity|].
      split; intros; discriminate.
    + rewrite filter_AddressBookSet_legacy.
      split; [discriminate|]. split; intros _.
      * intros addrs Hf. by rewrite (listenAddrs_calls_parsed _ _ _ Hf).
      * intros Hex. by rewrite (listenAddrs_calls_unparseable _ _ Hex).
  - rewrite filter_AddressBookSet_legacy.
    split; [discriminate|]. split; intros _.
    + intros addrs Hf. by rewrite (listenAddrs_calls_parsed _ _ _ Hf).
    + intros Hex. by rewrite (listenAddrs_calls_unparseable _ _ Hex).
Qed.

(** C2.  When the peer id derived from the public key of the message is
    not the remote peer of the connection, [identify] throws
    [ERR_INVALID_PEER]; the peer store is left as it was, and the only
    calls made are the opening and closing of the stream. *)
Theorem identify_rejects_mismatched_peer self conn w message key id :
  (_identify self conn w).1 = inr message ->
  Identify.publicKey message = Some key ->
  peerIdFromKeys key = inr id ->
  equals (remotePeer conn) id = false ->
  (identify self conn w).1
    = inl (CodeError "identified peer does not match the expected peer"
                     codes.ERR_INVALID_PEER)
  /\ peerStore (identify self conn w).2 = peerStore w
  /\ addressManager (identify self conn w).2 = addressManager w
  /\ calls_of (identify self conn) w
     = [NewStream (conn_id conn) [identifyProtocolStr self]; StreamClose (conn_id conn)].
Proof.
  intros Hm Hk Hid Hr.
  assert (E : identify self conn w
              = (inl (CodeError "identified peer does not match the expected peer"
                                codes.ERR_INVALID_PEER),
                 opened self conn w)).
  { unfold identify. erewrite bind_ok by (by apply _identify_ok).
    rewrite Hk. erewrite bind_ok by (unfold lift; by rewrite Hid).
    by rewrite Hr. }
  repeat split; try (by rewrite E).
  apply calls_of_app. rewrite E. cbn. by rewrite <- app_assoc.
Qed.

(** C8.  When the peer id derived from the public key of the message is
    the local peer id, [identify] throws [ERR_INVALID_PEER] and the peer
    store is left as it was. *)
Theorem identify_rejects_own_peer_id self conn w message key id :
  (_identify self conn w).1 = inr message ->
  Identify.publicKey message = Some key ->
  peerIdFromKeys key = inr id ->
  equals (peerId self) id = true ->
  (exists msg, (identify self conn w).1 = inl (CodeError msg codes.ERR_INVALID_PEER))
  /\ peerStore (identify self conn w).2 = peerStore w.
Proof.
  intros Hm Hk Hid Hl.
  unfold identify. erewrite bind_ok by (by apply _identify_ok).
  rewrite Hk. erewrite bind_ok by (unfold lift; by rewrite Hid).
  rewrite Hl. destruct (equals (remotePeer conn) id); cbn; eauto.
Qed.

(** C6 (amended).  When some entry of [listenAddrs] does not parse, no
    entry is applied: [addressBook.set] is not called at all, in
    [identify] and in [_handlePush] alike, while the protocols of the
    message are still written for the remote peer. *)
Theorem unparseable_listenAddr_drops_all self :
  (forall conn w message key id,
      (_identify self conn w).1 = inr message ->
      Identify.publicKey message = Some key ->
      peerIdFromKeys key = inr id ->
      equals (remotePeer conn) id = true ->
      equals (peerId self) id = false ->
      Exists (fun b => exists e, multiaddr b = inl e) (Identify.listenAddrs message) ->
      List.filter is_AddressBookSet (calls_of (identify self conn) w) = []
      /\ In (ProtoBookSet id (Identify.protocols message))
            (calls_of (identify self conn) w))
  /\ (forall data w message,
      (read_push self data w).1 = inr (Some message) ->
      equals (peerId self) (remotePeer (connection data)) = false ->
      Exists (fun b => exists e, multiaddr b = inl e) (Identify.listenAddrs message) ->
      List.filter is_AddressBookSet (calls_of (_handlePush self data) w) = []
      /\ In (ProtoBookSet (remotePeer (connection data)) (Identify.protocols message))
            (calls_of (_handlePush self data) w)).
Proof.
  split.
  - intros conn w message key id Hm Hk Hid Hr Hl Hex.
    rewrite (identify_calls _ _ _ _ _ _ Hm Hk Hid Hr Hl).
    cbn [List.filter is_AddressBookSet].
    unfold reconcile_calls, legacy_calls.
    rewrite (listenAddrs_calls_unparseable _ _ Hex). cbn [app].
    destruct (verified_envelope message id) as [envelope|].
    + cbn [List.filter is_AddressBookSet].
      destruct (addressBook_consumePeerRecord envelope (peerStore w)).1.
      * split; [apply filter_AddressBookSet_identity|].
        do 3 right. by left.
      * rewrite List.filter_app, filter_AddressBookSet_identity,
          filter_AddressBookSet_observedAddr.
        split; [done|]. do 3 right. apply in_or_app. left. by left.
    + rewrite List.filter_app, filter_AddressBookSet_identity,
        filter_AddressBookSet_observedAddr.
      split; [done|]. do 2 right. apply in_or_app. left. by left.
  - intros data w message Hp Hl Hex.
    rewrite read_push_run in Hp. injection Hp as Hp.
    rewrite (_handlePush_calls _ _ _ _ Hp Hl).
    cbn [List.filter is_AddressBookSet].
    unfold reconcile_push_calls, legacy_push_calls.
    rewrite (listenAddrs_calls_unparseable _ _ Hex). cbn [app].
    destruct (opened_envelope message) as [envelope|].
    + destruct (addressBook_consumePeerRecord envelope (peerStore w)).1;
        (split; [done|]); right; right; by left.
    + split; [done|]. right. by left.
Qed.

(** C9.  With a cap on observed addresses, a run of identify exchanges
    that starts with at most [cap] observed addresses never holds more
    than [cap]; and an exchange calls [addObservedAddr] only when the
    address manager holds strictly fewer than [cap]. *)
Theorem observed_addresses_capped self cap :
  maxObservedAddresses (init self) = Some cap ->
  (forall conns w,
      observed_count w <= cap -> observed_count (identify_all self conns w) <= cap)
  /\ (forall conn w addr,
      In (AddObservedAddr addr) (calls_of (identify self conn) w) ->
      observed_count w < cap).
Proof.
  intros Hcap. split.
  - unfold identify_all. induction conns as [|conn conns IH]; intros w Hle; [done|].
    cbn [map dispatchEvents]. apply IH.
    rewrite dispatchEvent_peer_connect. by apply observed_count_identify.
  - intros conn w addr Hin.
    apply In_AddObservedAddr_identify in Hin.
    rewrite Hcap in Hin. by apply Nat.ltb_lt in Hin.
Qed.

(** C5 (amended).  After [stop], and after any events that follow it,
    neither protocol string is registered, the service is not started, no
    push is written to a stream, and a change of the local addresses or
    protocols does nothing at all. *)
Theorem stop_unregisters_and_silences_push self w evts :
  let w' := (stop self w).2 in
  let w'' := dispatchEvents self evts w' in
  registrar w'' !! identifyProtocolStr self = None
  /\ registrar w'' !! identifyPushProtocolStr self = None
  /\ started w'' = false
  /\ List.filter is_StreamSink (drop (length (calls w')) (calls w'')) = []
  /\ (forall p, dispatchEvent self (change_multiaddrs p) w'' = (inr tt, w''))
  /\ (forall p, dispatchEvent self (change_protocols p) w'' = (inr tt, w''))
  /\ (forall protocol data,
         protocol = identifyProtocolStr self \/ protocol = identifyPushProtocolStr self ->
         onIncomingStream self protocol data w'' = (inr tt, w'')).
Proof.
  intros w' w''.
  assert (Hs : started w' = false) by done.
  destruct (quiet_dispatchEvents_stopped self evts w' Hs) as (Hs' & Hreg & tr & Hc & Hf).
  fold w'' in Hs', Hreg, Hc.
  assert (H1 : registrar w'' !! identifyProtocolStr self = None).
  { rewrite Hreg. cbn.
    destruct (decide (identifyPushProtocolStr self = identifyProtocolStr self)) as [->|Hne].
    - apply lookup_delete_eq.
    - rewrite lookup_delete_ne by done. apply lookup_delete_eq. }
  assert (H2 : registrar w'' !! identifyPushProtocolStr self = None).
  { rewrite Hreg. cbn. apply lookup_delete_eq. }
  assert (H3 : started w'' = false) by congruence.
  repeat split; try done.
  - by rewrite Hc, drop_app_length.
  - intros p. by apply dispatchEvent_change_stopped.
  - intros p. by apply dispatchEvent_change_stopped.
  - intros protocol data [-> | ->]; unfold onIncomingStream, bind, gets.
    + by rewrite H1.
    + by rewrite H2.
Qed.

(** C7.  When the frame on the identify stream declares a length above
    [maxIdentifyMessageSize] (8192 when the option is not given),
    [identify] throws [ERR_MESSAGE_TOO_LARGE], the read leaves the whole
    payload on the stream, and the peer store is left as it was. *)
Theorem identify_rejects_oversized_frame self conn w (len : N) (payload : Uint8Array) :
  newStream conn [identifyProtocolStr self] = inr (inr (lp.encode_varint len ++ payload)) ->
  (maxDataLength self < len)%N ->
  (identify self conn w).1
    = inl (CodeError "message length too long" codes.ERR_MESSAGE_TOO_LARGE)
  /\ lp.unread (lp.decode_one (lp.encode_varint len ++ payload) (maxDataLength self))
     = payload
  /\ peerStore (identify self conn w).2 = peerStore w
  /\ (maxIdentifyMessageSize (init self) = None -> maxDataLength self = 8192%N).
Proof.
  intros Hs Hlen.
  assert (E : _identify self conn w
              = (inl (CodeError "message length too long" codes.ERR_MESSAGE_TOO_LARGE),
                 opened self conn w)).
  { rewrite _identify_run, Hs. unfold received.
    by rewrite decode_one_too_large. }
  unfold identify. erewrite bind_throw by exact E. cbn [fst snd].
  repeat split.
  - by rewrite decode_one_too_large.
  - intros Hnone. unfold maxDataLength. by rewrite Hnone.
Qed.


End Claims.

(** ** The claims on the scenarios *)

Section Scenarios.
Import Testbed Scenario.
#[local] Existing Instance Testbed.consts.
#[local] Existing Instance Testbed.peerStore_in_memory.
#[local] Existing Instance Testbed.addressManager_in_memory.

Local Ltac run := vm_compute; reflexivity.

(** C1, on a message whose envelope is accepted and on a legacy message
    whose two listen addresses parse. *)
Lemma identify_envelope_or_listenAddrs_witness :
  List.filter is_AddressBookSet
    (calls_of (identify (libs := always (signed_message Byte.x41)) (serviceB None) connA)
              world0) = []
  /\ List.filter is_AddressBookSet
       (calls_of (identify (libs := always (legacy_message (Some keyA) [addr1; addr2]))
                           (serviceB None) connA) world0)
     = [AddressBookSet peerA [mkMultiaddr addr1; mkMultiaddr addr2]].
Proof.
  split.
  - pose proof (identify_envelope_or_listenAddrs
                  (libs := always (signed_message Byte.x41))
                  (serviceB None) connA world0 (signed_message Byte.x41) keyA peerA
                  eq_refl eq_refl eq_refl eq_refl eq_refl) as (Hwins & _ & _).
    apply Hwins. reflexivity.
  - pose proof (identify_envelope_or_listenAddrs
                  (libs := always (legacy_message (Some keyA) [addr1; addr2]))
                  (serviceB None) connA world0 (legacy_message (Some keyA) [addr1; addr2])
                  keyA peerA eq_refl eq_refl eq_refl eq_refl eq_refl) as (_ & Hlegacy & _).
    apply Hlegacy; [reflexivity|]. repeat constructor.
Defined.

(** C1 as stated fails: a message without a signed peer record whose only
    listen address does not parse completes, and nothing is set on the
    address book. *)
Lemma unparseable_listenAddrs_are_not_set :
  let message := legacy_message (Some keyA) [garbage] in
  let exchange := identify (libs := always message) (serviceB None) connA in
  Identify.signedPeerRecord message = None
  /\ (exchange world0).1 = inr tt
  /\ ~ (exists addrs, In (AddressBookSet peerA addrs) (calls_of exchange world0))
  /\ addresses (entry peerA (peerStore (exchange world0).2)) = [].
Proof.
  repeat split.
  intros [addrs Hin]. vm_compute in Hin.
  repeat (destruct Hin as [Hin|Hin]; [discriminate|]). exact Hin.
Qed.

(** C2, on a message whose key is [peerZ]'s while the connection is to
    [peerA]. *)
Lemma identify_rejects_mismatched_peer_witness :
  let exchange := identify (libs := always (legacy_message (Some keyZ) [addr1]))
                           (serviceB None) connA in
  (exchange world0).1
    = inl (CodeError "identified peer does not match the expected peer"
                     codes.ERR_INVALID_PEER)
  /\ peerStore (exchange world0).2 = peerStore world0.
Proof.
  pose proof (identify_rejects_mismatched_peer
                (libs := always (legacy_message (Some keyZ) [addr1]))
                (serviceB None) connA world0 (legacy_message (Some keyZ) [addr1])
                keyZ peerZ eq_refl eq_refl eq_refl eq_refl) as (H1 & H2 & _).
  split; [exact H1 | exact H2].
Defined.


(** C4: an exchange whose envelope is accepted completes; its observed
    address parses and the address manager holds none, below the cap of
    one, yet [addObservedAddr] is not called.  The same message without
    the envelope has its observed address stored. *)
Theorem accepted_envelope_skips_observedAddr :
  let L := always (signed_message Byte.x41) in
  let exchange := identify (libs := L) (serviceB (Some 1)) connA in
  (exchange world0).1 = inr tt
  /\ getCleanMultiaddr (libs := L) (Identify.observedAddr (signed_message Byte.x41))
     = Some (mkMultiaddr observedB)
  /\ observed_count world0 = 0
  /\ List.filter is_AddObservedAddr (calls_of exchange world0) = []
  /\ observed (addressManager (exchange world0).2) = []
  /\ List.filter is_AddObservedAddr
       (calls_of (identify (libs := always (legacy_message (Some keyA) [addr2]))
                           (serviceB (Some 1)) connA) world0)
     = [AddObservedAddr (mkMultiaddr observedB)].
Proof. repeat split. Qed.

(** C5 as stated fails: after [start] and [stop], a [peer:connect] event
    still runs an identify exchange, which writes to the peer store. *)
Lemma peer_connect_after_stop_identifies :
  let L := always (legacy_message (Some keyA) [addr1]) in
  let stopped := (stop (serviceB None) (start (serviceB None) world0).2).2 in
  let after := (dispatchEvent (libs := L) (serviceB None) (peer_connect connA) stopped).2 in
  started stopped = false
  /\ In (NewStream "conn-A" ["/ipfs/id/1.0.0"])
        (calls_of (dispatchEvent (libs := L) (serviceB None) (peer_connect connA)) stopped)
  /\ protos (entry peerA (peerStore after)) = ["/chat/1"; "/ping/1"]
  /\ addresses (entry peerA (peerStore after)) = [mkMultiaddr addr1].
Proof.
  repeat split. vm_compute. by left.
Qed.

(** C6, on a message and on a push whose listen addresses are one that
    parses and one that does not. *)
Lemma unparseable_listenAddr_drops_all_witness :
  let L := always (legacy_message (Some keyA) [addr1; garbage]) in
  List.filter is_AddressBookSet
    (calls_of (identify (libs := L) (serviceB None) connA) world0) = []
  /\ List.filter is_AddressBookSet
       (calls_of (_handlePush (libs := L) (serviceB None) pushA) world0) = [].
Proof.
  intros L.
  destruct (unparseable_listenAddr_drops_all (libs := L) (serviceB None)) as [Hid Hpush].
  split.
  - apply (Hid connA world0 (legacy_message (Some keyA) [addr1; garbage]) keyA peerA);
      try run.
    apply Exists_cons_tl, Exists_cons_hd. by eexists.
  - apply (Hpush pushA world0 (legacy_message (Some keyA) [addr1; garbage])); try run.
    apply Exists_cons_tl, Exists_cons_hd. by eexists.
Defined.

(** C6 as stated fails: of the listen addresses [addr1; garbage] the first
    parses, and it is not applied to the address book. *)
Lemma parseable_entry_dropped_with_unparseable_one :
  let message := legacy_message (Some keyA) [addr1; garbage] in
  let L := always message in
  let exchange := identify (libs := L) (serviceB None) connA in
  multiaddr (Libraries := L) addr1 = inr (mkMultiaddr addr1)
  /\ (exchange world0).1 = inr tt
  /\ ~ In (mkMultiaddr addr1) (addresses (entry peerA (peerStore (exchange world0).2)))
  /\ ~ (exists id addrs, In (AddressBookSet id addrs) (calls_of exchange world0))
  /\ ~ (exists id addrs,
          In (AddressBookSet id addrs)
             (calls_of (_handlePush (libs := L) (serviceB None) pushA) world0)).
Proof.
  repeat split.
  - intros Hin. vm_compute in Hin. exact Hin.
  - intros (id & addrs & Hin). vm_compute in Hin.
    repeat (destruct Hin as [Hin|Hin]; [discriminate|]). exact Hin.
  - intros (id & addrs & Hin). vm_compute in Hin.
    repeat (destruct Hin as [Hin|Hin]; [discriminate|]). exact Hin.
Qed.

(** C7, on a frame that declares 9000 bytes under the default cap. *)
Lemma identify_rejects_oversized_frame_witness :
  let conn := connA_with (lp.encode_varint 9000 ++ [Byte.x0a; Byte.x0b; Byte.x0c]) in
  (identify (libs := always (legacy_message (Some keyA) [addr1])) (serviceB None) conn
            world0).1
    = inl (CodeError "message length too long" codes.ERR_MESSAGE_TOO_LARGE)
  /\ lp.unread (lp.decode_one (lp.encode_varint 9000 ++ [Byte.x0a; Byte.x0b; Byte.x0c])
                              (maxDataLength (serviceB None)))
     = [Byte.x0a; Byte.x0b; Byte.x0c].
Proof.
  intros conn.
  pose proof (identify_rejects_oversized_frame
                (libs := always (legacy_message (Some keyA) [addr1]))
                (serviceB None) conn world0 9000 [Byte.x0a; Byte.x0b; Byte.x0c]
                eq_refl eq_refl) as (H1 & H2 & _).
  split; [exact H1 | exact H2].
Defined.

(** C8, on a node that runs under [peerA]'s id and identifies [peerA]. *)
Lemma identify_rejects_own_peer_id_witness :
  exists msg,
    (identify (libs := always (legacy_message (Some keyA) [addr1])) serviceA connA
              world0).1
    = inl (CodeError msg codes.ERR_INVALID_PEER).
Proof.
  apply (identify_rejects_own_peer_id
           (libs := always (legacy_message (Some keyA) [addr1]))
           serviceA connA world0 (legacy_message (Some keyA) [addr1]) keyA peerA);
    reflexivity.
Defined.

(** C9, with a cap of one and two peers that report two distinct observed
    addresses: one is kept. *)
Lemma observed_addresses_capped_witness :
  observed_count (identify_all (libs := two_observers) (serviceB (Some 1))
                               [connA; connZ] world0) <= 1
  /\ observed (addressManager (identify_all (libs := two_observers) (serviceB (Some 1))
                                            [connA; connZ] world0))
     = [mkMultiaddr observedB].
Proof.
  split; [|reflexivity].
  apply (observed_addresses_capped (libs := two_observers) (serviceB (Some 1)) 1 eq_refl).
  vm_compute. lia.
Defined.


End Scenarios.

(** * Further properties of the service *)

(** ** The initiator *)

Section Initiator.
Context {consts : Consts} {libs : Libraries} {PS AM : Type}
        {store : PeerStore PS} {manager : AddressManager AM}.
Local Abbreviation World := (World PS AM).
Implicit Types (self : IdentifyService) (conn : Connection) (w : World)
               (id : PeerId) (message : Identify.t).

Lemma uint8ArrayEquals_eq (a b : Uint8Array) : uint8ArrayEquals a b = true <-> a = b.
Proof.
  revert b. induction a as [|x a IH]; intros [|y b]; cbn; try done.
  rewrite andb_true_iff, IH. unfold byte_eqb. split.
  - intros [Hxy ->]. by rewrite (Byte.byte_dec_bl _ _ Hxy).
  - intros [= -> ->]. split; [by apply Byte.byte_dec_lb | done].
Qed.

Lemma equals_multihash (a b : PeerId) : equals a b = true <-> multihash a = multihash b.
Proof. apply uint8ArrayEquals_eq. Qed.

Lemma equals_false_multihash (a b : PeerId) :
  equals a b = false <-> multihash a <> multihash b.
Proof.
  rewrite <- equals_multihash. destruct (equals a b); naive_solver.
Qed.

(** A completed [identify] went through the three checks. *)
Lemma identify_success_inv self conn w u :
  (identify self conn w).1 = inr u ->
  exists message key id,
    (_identify self conn w).1 = inr message
    /\ Identify.publicKey message = Some key
    /\ peerIdFromKeys key = inr id
    /\ equals (remotePeer conn) id = true
    /\ equals (peerId self) id = false.
Proof.
  destruct (_identify self conn w) as [[e|message] w1] eqn:E.
  { unfold identify. by erewrite bind_throw by exact E. }
  assert (Hm : (_identify self conn w).1 = inr message) by (by rewrite E).
  unfold identify. erewrite bind_ok by (by apply _identify_ok).
  destruct (Identify.publicKey message) as [key|] eqn:Hk; [|done].
  destruct (peerIdFromKeys key) as [e|id] eqn:Hid.
  { by erewrite bind_throw by reflexivity. }
  erewrite bind_ok by reflexivity.
  destruct (equals (remotePeer conn) id) eqn:Hr; [|done].
  destruct (equals (peerId self) id) eqn:Hl; [done|].
  intros _. by exists message, key, id.
Qed.

(** A failed [identify] stopped before the reconciler. *)
Lemma identify_failure_inv self conn w e :
  (identify self conn w).1 = inl e ->
  (identify self conn w).2 = record (NewStream (conn_id conn) [identifyProtocolStr self]) w
  \/ (identify self conn w).2 = opened self conn w.
Proof.
  destruct (identify_cases self conn w) as [[e' E]|[[e' E]|(id & message & E)]];
    rewrite E; cbn; auto. discriminate.
Qed.

Lemma identify_failure_calls self conn w e :
  (identify self conn w).1 = inl e ->
  calls_of (identify self conn) w
    = [NewStream (conn_id conn) [identifyProtocolStr self]]
  \/ calls_of (identify self conn) w
    = [NewStream (conn_id conn) [identifyProtocolStr self]; StreamClose (conn_id conn)].
Proof.
  intros He. destruct (identify_failure_inv _ _ _ _ He) as [E|E].
  - left. apply calls_of_app. by rewrite E.
  - right. apply calls_of_app. rewrite E. cbn. by rewrite <- app_assoc.
Qed.

(** X1.  Whenever [identify] throws, whatever the error, the peer store and
    the address manager are as they were: the only calls made are the
    opening of the stream and, when it was opened, its closing. *)
Theorem identify_failure_writes_nothing self conn w e :
  (identify self conn w).1 = inl e ->
  peerStore (identify self conn w).2 = peerStore w
  /\ addressManager (identify self conn w).2 = addressManager w
  /\ (calls_of (identify self conn) w
        = [NewStream (conn_id conn) [identifyProtocolStr self]]
      \/ calls_of (identify self conn) w
        = [NewStream (conn_id conn) [identifyProtocolStr self]; StreamClose (conn_id conn)]).
Proof.
  intros He. split; [|split; [|by apply (identify_failure_calls _ _ _ e)]];
    destruct (identify_failure_inv _ _ _ _ He) as [E|E]; by rewrite E.
Qed.

Ltac reconcile_cases :=
  unfold reconcile_calls, legacy_calls, identity_calls, listenAddrs_calls,
    observedAddr_calls, metadata_calls;
  repeat match goal with
         | |- context [match ?x with _ => _ end] => destruct x eqn:?
         | |- context [if ?x then _ else _] => destruct x eqn:?
         end.

(** X2.  A message that passes the three checks makes [identify] complete,
    and the exchange writes the protocols of the message once, for the
    derived peer id, then the agent version and the protocol version, each
    when it is present, as the UTF-8 bytes of the string. *)
Theorem identify_completes_and_stores_identity self conn w message key id :
  (_identify self conn w).1 = inr message ->
  Identify.publicKey message = Some key ->
  peerIdFromKeys key = inr id ->
  equals (remotePeer conn) id = true ->
  equals (peerId self) id = false ->
  (identify self conn w).1 = inr tt
  /\ List.filter is_ProtoBookSet (calls_of (identify self conn) w)
     = [ProtoBookSet id (Identify.protocols message)]
  /\ List.filter is_MetadataBookSetValue (calls_of (identify self conn) w)
     = match Identify.agentVersion message with
       | Some v => [MetadataBookSetValue id "AgentVersion" (uint8ArrayFromString v)]
       | None => []
       end
       ++ match Identify.protocolVersion message with
          | Some v => [MetadataBookSetValue id "ProtocolVersion" (uint8ArrayFromString v)]
          | None => []
          end.
Proof.
  intros Hm Hk Hid Hr Hl.
  rewrite (identify_calls _ _ _ _ _ _ Hm Hk Hid Hr Hl).
  rewrite (identify_run _ _ _ _ _ _ Hm Hk Hid Hr Hl).
  split; [done|].
  split; reconcile_cases; reflexivity.
Qed.

Lemma call_peer_reconcile_calls self id message ps am c p :
  In c (reconcile_calls self id message ps am) ->
  call_peer c = Some p ->
  equals p id = true \/ p = id.
Proof.
  assert (Hmeta : forall key v, In c (metadata_calls id key v) -> call_peer c = Some p -> p = id).
  { intros key [v|]; [|done]. intros [<-|[]]. cbn. congruence. }
  assert (Hidentity : In c (identity_calls id message) -> call_peer c = Some p -> p = id).
  { unfold identity_calls. intros [<-|Hin]; [cbn; congruence|].
    apply in_app_or in Hin as [Hin|Hin]; eauto. }
  assert (Hlegacy : In c (legacy_calls self id message am) -> call_peer c = Some p -> p = id).
  { unfold legacy_calls. intros Hin.
    apply in_app_or in Hin as [Hin|Hin].
    { unfold listenAddrs_calls in Hin. destruct (map_throwing _ _); [done|].
      destruct Hin as [<-|[]]. cbn. congruence. }
    apply in_app_or in Hin as [Hin|Hin]; [eauto|].
    unfold observedAddr_calls in Hin.
    destruct (getCleanMultiaddr _); [|done].
    destruct (below _ _); [|done]. by destruct Hin as [<-|[]]. }
  unfold reconcile_calls, verified_envelope.
  destruct (Identify.signedPeerRecord message) as [spr|]; [|eauto].
  destruct (openAndCertify spr PeerRecord_DOMAIN) as [e|envelope]; [eauto|].
  destruct (equals (RecordEnvelope.peerId envelope) id) eqn:Hp; [|eauto].
  intros [<-|Hin].
  - cbn. intros [= <-]. by left.
  - destruct (addressBook_consumePeerRecord envelope ps).1; eauto.
Qed.

(** X3.  Whatever the outcome of [identify], every call it makes on the
    peer store is about the remote peer of the connection: the peer id
    passed to a book, and the peer id of an envelope offered to the address
    book, have the multihash of [connection.remotePeer], which is not the
    multihash of the local peer. *)
Theorem identify_writes_only_for_remote_peer self conn w c p :
  In c (calls_of (identify self conn) w) ->
  call_peer c = Some p ->
  multihash p = multihash (remotePeer conn)
  /\ multihash p <> multihash (peerId self).
Proof.
  intros Hin Hp.
  destruct (identify self conn w).1 as [e|u] eqn:Hres.
  { destruct (identify_failure_calls _ _ _ _ Hres) as [E|E];
      rewrite E in Hin; cbn in Hin; intuition (subst; discriminate). }
  destruct (identify_success_inv _ _ _ _ Hres) as (message & key & id & Hm & Hk & Hid & Hr & Hl).
  rewrite (identify_calls _ _ _ _ _ _ Hm Hk Hid Hr Hl) in Hin.
  destruct Hin as [<-|[<-|Hin]]; [done|done|].
  apply equals_multihash in Hr. apply equals_false_multihash in Hl.
  assert (Hpid : multihash p = multihash id).
  { destruct (call_peer_reconcile_calls _ _ _ _ _ _ _ Hin Hp) as [He| ->]; [|done].
    by apply equals_multihash. }
  split; congruence.
Qed.

Lemma identify_not_opened self conn w e :
  newStream conn [identifyProtocolStr self] = inl e ->
  identify self conn w
  = (inl e, record (NewStream (conn_id conn) [identifyProtocolStr self]) w).
Proof.
  intros Hs. unfold identify. erewrite bind_throw; [done|]. by rewrite _identify_run, Hs.
Qed.

Lemma identify_opened self conn w stream :
  newStream conn [identifyProtocolStr self] = inr stream ->
  (exists e, identify self conn w = (inl e, opened self conn w))
  \/ (exists id message, identify self conn w
                         = (inr tt, reconcile self id message (opened self conn w))).
Proof.
  intros Hs.
  destruct (received self stream) as [e|message] eqn:Hrec.
  { left. exists e. unfold identify.
    erewrite bind_throw; [done|]. by rewrite _identify_run, Hs, Hrec. }
  assert (Hm : (_identify self conn w).1 = inr message)
    by (by rewrite _identify_run, Hs, Hrec).
  destruct (Identify.publicKey message) as [key|] eqn:Hk.
  2:{ left. unfold identify. erewrite bind_ok by (by apply _identify_ok).
      rewrite Hk. unfold throw. eauto. }
  destruct (peerIdFromKeys key) as [e|id] eqn:Hid.
  { left. unfold identify. erewrite bind_ok by (by apply _identify_ok).
    rewrite Hk. erewrite bind_throw by (unfold lift; by rewrite Hid). eauto. }
  destruct (equals (remotePeer conn) id) eqn:Hr.
  2:{ left. unfold identify. erewrite bind_ok by (by apply _identify_ok).
      rewrite Hk. erewrite bind_ok by (unfold lift; by rewrite Hid).
      rewrite Hr. unfold throw. cbn [negb]. eauto. }
  destruct (equals (peerId self) id) eqn:Hl.
  { left. unfold identify. erewrite bind_ok by (by apply _identify_ok).
    rewrite Hk. erewrite bind_ok by (unfold lift; by rewrite Hid).
    rewrite Hr, Hl. unfold throw. cbn [negb]. eauto. }
  right. exists id, message. by eapply identify_run.
Qed.

(** X4.  Whatever the outcome, [identify] opens exactly one stream,
    negotiated to the identify protocol alone, as its first call; it never
    writes to a stream; and when the stream was opened it closes it once,
    before any call on the peer store or the address manager. *)
Theorem identify_stream_discipline self conn w :
  exists rest,
    calls_of (identify self conn) w
      = NewStream (conn_id conn) [identifyProtocolStr self] :: rest
    /\ match newStream conn [identifyProtocolStr self] with
       | inl e => rest = [] /\ (identify self conn w).1 = inl e
       | inr _ => exists writes,
           rest = StreamClose (conn_id conn) :: writes
           /\ List.filter is_stream_call writes = []
       end.
Proof.
  destruct (newStream conn [identifyProtocolStr self]) as [e|stream] eqn:Hs.
  - exists []. rewrite (identify_not_opened _ _ _ _ Hs). split; [|done].
    apply calls_of_app. by rewrite (identify_not_opened _ _ _ _ Hs).
  - destruct (identify_opened self conn w stream Hs) as [[e E]|(id & message & E)].
    + exists [StreamClose (conn_id conn)]. split.
      * apply calls_of_app. rewrite E. cbn. by rewrite <- app_assoc.
      * by exists [].
    + exists (StreamClose (conn_id conn)
                :: reconcile_calls self id message (peerStore w) (addressManager w)).
      split.
      * apply calls_of_app. rewrite E. cbn [snd]. rewrite calls_reconcile. cbn.
        by rewrite <- !app_assoc.
      * eexists. split; [reflexivity|]. reconcile_cases; reflexivity.
Qed.


Lemma addressManager_offer_envelope envelope w :
  addressManager (offer_envelope envelope w) = addressManager w.
Proof. done. Qed.

Lemma addressManager_legacy self id message w :
  addressManager (legacy self id message w)
  = match getCleanMultiaddr (Identify.observedAddr message) with
    | Some addr =>
        if below (observed_count w) (maxObservedAddresses (init self))
        then addObservedAddr addr (addressManager w)
        else addressManager w
    | None => addressManager w
    end.
Proof.
  unfold legacy, learn_observedAddr, observed_count.
  rewrite addressManager_store_identity, addressManager_store_listenAddrs.
  destruct (getCleanMultiaddr _) as [addr|].
  - destruct (below _ _); [done|].
    by rewrite addressManager_store_identity, addressManager_store_listenAddrs.
  - by rewrite addressManager_store_identity, addressManager_store_listenAddrs.
Qed.

Lemma addressManager_reconcile self id message w :
  addressManager (reconcile self id message w)
  = if envelope_wins message id (peerStore w) then addressManager w
    else match getCleanMultiaddr (Identify.observedAddr message) with
         | Some addr =>
             if below (observed_count w) (maxObservedAddresses (init self))
             then addObservedAddr addr (addressManager w)
             else addressManager w
         | None => addressManager w
         end.
Proof.
  unfold reconcile, envelope_wins.
  destruct (verified_envelope message id) as [envelope|]; [|apply addressManager_legacy].
  destruct (addressBook_consumePeerRecord envelope (peerStore w)).1.
  - by rewrite addressManager_store_identity.
  - by rewrite addressManager_legacy.
Qed.

(** X6.  An observed address that is absent, empty or unparseable does not
    fail the exchange: [identify] completes, [addObservedAddr] is not
    called and the address manager is as it was. *)
Theorem identify_without_usable_observedAddr self conn w message key id :
  (_identify self conn w).1 = inr message ->
  Identify.publicKey message = Some key ->
  peerIdFromKeys key = inr id ->
  equals (remotePeer conn) id = true ->
  equals (peerId self) id = false ->
  (Identify.observedAddr message = None
   \/ Identify.observedAddr message = Some []
   \/ exists addr e, Identify.observedAddr message = Some addr /\ multiaddr addr = inl e) ->
  (identify self conn w).1 = inr tt
  /\ List.filter is_AddObservedAddr (calls_of (identify self conn) w) = []
  /\ addressManager (identify self conn w).2 = addressManager w.
Proof.
  intros Hm Hk Hid Hr Hl Hobs.
  assert (Hclean : getCleanMultiaddr (Identify.observedAddr message) = None).
  { destruct Hobs as [->|[->|(addr & e & -> & He)]]; [done|done|].
    unfold getCleanMultiaddr. rewrite He. by destruct (0 <? length addr)%nat. }
  rewrite (identify_calls _ _ _ _ _ _ Hm Hk Hid Hr Hl).
  rewrite (identify_run _ _ _ _ _ _ Hm Hk Hid Hr Hl). cbn [fst snd].
  split; [done|]. split.
  - unfold reconcile_calls, legacy_calls, observedAddr_calls. rewrite Hclean.
    unfold identity_calls, listenAddrs_calls, metadata_calls.
    repeat match goal with
           | |- context [match ?x with _ => _ end] => destruct x eqn:?
           | |- context [if ?x then _ else _] => destruct x eqn:?
           end; reflexivity.
  - rewrite addressManager_reconcile, Hclean. by destruct (envelope_wins _ _ _).
Qed.

(** X7.  On the legacy path (no envelope won), an observed address that is
    not empty and parses is handed to the address manager exactly when the
    number of observed addresses is below [maxObservedAddresses], and always
    when no maximum is configured; at the cap it is dropped and the exchange
    still completes. *)
Theorem identify_learns_observedAddr_below_cap self conn w message key id addr ma :
  (_identify self conn w).1 = inr message ->
  Identify.publicKey message = Some key ->
  peerIdFromKeys key = inr id ->
  equals (remotePeer conn) id = true ->
  equals (peerId self) id = false ->
  envelope_wins message id (peerStore w) = false ->
  Identify.observedAddr message = Some addr ->
  addr <> [] ->
  multiaddr addr = inr ma ->
  (identify self conn w).1 = inr tt
  /\ List.filter is_AddObservedAddr (calls_of (identify self conn) w)
     = (if below (observed_count w) (maxObservedAddresses (init self))
        then [AddObservedAddr ma] else [])
  /\ addressManager (identify self conn w).2
     = (if below (observed_count w) (maxObservedAddresses (init self))
        then addObservedAddr ma (addressManager w) else addressManager w)
  /\ (maxObservedAddresses (init self) = None ->
      addressManager (identify self conn w).2 = addObservedAddr ma (addressManager w)).
Proof.
  intros Hm Hk Hid Hr Hl Hwins Hobs Hne Hma.
  assert (Hclean : getCleanMultiaddr (Identify.observedAddr message) = Some ma).
  { rewrite Hobs. unfold getCleanMultiaddr. rewrite Hma. by destruct addr. }
  rewrite (identify_calls _ _ _ _ _ _ Hm Hk Hid Hr Hl).
  rewrite (identify_run _ _ _ _ _ _ Hm Hk Hid Hr Hl). cbn [fst snd].
  assert (Ham : addressManager (reconcile self id message (opened self conn w))
                = (if below (observed_count w) (maxObservedAddresses (init self))
                   then addObservedAddr ma (addressManager w) else addressManager w)).
  { rewrite addressManager_reconcile, Hclean.
    change (peerStore (opened self conn w)) with (peerStore w). by rewrite Hwins. }
  split; [done|]. split; [|split; [exact Ham|]].
  - unfold envelope_wins in Hwins.
    unfold reconcile_calls, legacy_calls, observedAddr_calls. rewrite Hclean.
    unfold identity_calls, listenAddrs_calls, metadata_calls, observed_count.
    destruct (verified_envelope message id) as [envelope|].
    + rewrite Hwins.
      repeat match goal with
             | |- context [match ?x with _ => _ end] => destruct x eqn:?
             | |- context [if ?x then _ else _] => destruct x eqn:?
             end; reflexivity.
    + repeat match goal with
             | |- context [match ?x with _ => _ end] => destruct x eqn:?
             | |- context [if ?x then _ else _] => destruct x eqn:?
             end; reflexivity.
  - intros Hnone. rewrite Ham, Hnone. done.
Qed.

(** X8.  When the signed peer record of the message opens, carries the
    derived peer id and is accepted by the address book, the calls of
    [identify] after the stream are exactly: the envelope offered to the
    address book, the protocols, and the versions that are present; the
    address manager is not touched. *)
Theorem identify_envelope_path self conn w message key id signedPeerRecord envelope :
  (_identify self conn w).1 = inr message ->
  Identify.publicKey message = Some key ->
  peerIdFromKeys key = inr id ->
  equals (remotePeer conn) id = true ->
  equals (peerId self) id = false ->
  Identify.signedPeerRecord message = Some signedPeerRecord ->
  openAndCertify signedPeerRecord PeerRecord_DOMAIN = inr envelope ->
  equals (RecordEnvelope.peerId envelope) id = true ->
  (addressBook_consumePeerRecord envelope (peerStore w)).1 = true ->
  calls_of (identify self conn) w
  = [NewStream (conn_id conn) [identifyProtocolStr self];
     StreamClose (conn_id conn);
     ConsumePeerRecord envelope;
     ProtoBookSet id (Identify.protocols message)]
    ++ match Identify.agentVersion message with
       | Some v => [MetadataBookSetValue id "AgentVersion" (uint8ArrayFromString v)]
       | None => []
       end
    ++ match Identify.protocolVersion message with
       | Some v => [MetadataBookSetValue id "ProtocolVersion" (uint8ArrayFromString v)]
       | None => []
       end
  /\ addressManager (identify self conn w).2 = addressManager w.
Proof.
  intros Hm Hk Hid Hr Hl Hspr Henv Hp Hc.
  assert (Hv : verified_envelope message id = Some envelope).
  { unfold verified_envelope. by rewrite Hspr, Henv, Hp. }
  rewrite (identify_calls _ _ _ _ _ _ Hm Hk Hid Hr Hl).
  rewrite (identify_run _ _ _ _ _ _ Hm Hk Hid Hr Hl). cbn [snd].
  split.
  - unfold reconcile_calls. rewrite Hv, Hc. reflexivity.
  - rewrite addressManager_reconcile. unfold envelope_wins.
    change (peerStore (opened self conn w)) with (peerStore w). by rewrite Hv, Hc.
Qed.

End Initiator.

(** ** The responders *)

Section Responders.
Context {consts : Consts} {libs : Libraries} {PS AM : Type}
        {store : PeerStore PS} {manager : AddressManager AM}.
Local Abbreviation World := (World PS AM).
Implicit Types (self : IdentifyService) (conn : Connection) (w : World)
               (id : PeerId) (message : Identify.t) (data : IncomingStreamData).

Lemma read_push_pushed self data w (message : option Identify.t) :
  (read_push self data w).1 = inr message <-> pushed self data = message.
Proof. rewrite read_push_run. cbn. split; congruence. Qed.

(** X9.  [_handlePush] never throws.  When the stream cannot be read, the
    frame decoder throws, no frame arrives, the frame does not decode, or
    the push comes from the local peer id, it closes the stream and does
    nothing else. *)
Theorem handlePush_ignores_unreadable_and_self self data w :
  (_handlePush self data w).1 = inr tt
  /\ (forall e, stream data = inl e ->
                _handlePush self data w = (inr tt, only_closed data w))
  /\ (forall source,
        stream data = inr source ->
        (forall d, lp.outcome (lp.decode_one source (maxDataLength self)) = inr (Some d) ->
                   exists err, Identify_decode d = inl err) ->
        _handlePush self data w = (inr tt, only_closed data w))
  /\ (equals (peerId self) (remotePeer (connection data)) = true ->
      _handlePush self data w = (inr tt, only_closed data w)).
Proof.
  rewrite _handlePush_run. cbv zeta. unfold only_closed.
  split; [done|]. split; [|split].
  - intros e He. unfold pushed. by rewrite He.
  - intros source Hs Hd. unfold pushed. rewrite Hs.
    destruct (lp.outcome _) as [e|[d|]]; try done.
    destruct (Hd d eq_refl) as [err ->]. done.
  - intros Hself. rewrite Hself. by destruct (pushed self data).
Qed.

Lemma Forall_push_write_for_listenAddrs id message :
  Forall (push_write_for id) (listenAddrs_calls id message).
Proof.
  unfold listenAddrs_calls. destruct (map_throwing _ _); repeat constructor.
Qed.

Lemma Forall_push_write_for_reconcile id message ps :
  Forall (push_write_for id) (reconcile_push_calls id message ps).
Proof.
  assert (Hlegacy : Forall (push_write_for id) (legacy_push_calls id message)).
  { unfold legacy_push_calls. apply Forall_app. split.
    - apply Forall_push_write_for_listenAddrs.
    - repeat constructor. }
  unfold reconcile_push_calls.
  destruct (opened_envelope message) as [envelope|]; [|done].
  constructor; [done|].
  destruct (addressBook_consumePeerRecord envelope ps).1; [|done].
  repeat constructor.
Qed.

Lemma _handlePush_calls_cases self data w :
  calls_of (_handlePush self data) w = [StreamClose (conn_id (connection data))]
  \/ exists message,
       calls_of (_handlePush self data) w
       = StreamClose (conn_id (connection data))
           :: reconcile_push_calls (remotePeer (connection data)) message (peerStore w).
Proof.
  destruct (pushed self data) as [message|] eqn:Hp.
  - destruct (equals (peerId self) (remotePeer (connection data))) eqn:Hl.
    + left. apply calls_of_app. rewrite _handlePush_run. cbv zeta. by rewrite Hp, Hl.
    + right. exists message. by apply _handlePush_calls.
  - left. apply calls_of_app. rewrite _handlePush_run. cbv zeta. by rewrite Hp.
Qed.

Lemma addressManager_legacy_push id message w :
  addressManager (legacy_push id message w) = addressManager w.
Proof. unfold legacy_push. cbn. apply addressManager_store_listenAddrs. Qed.

Lemma addressManager_reconcile_push id message w :
  addressManager (reconcile_push id message w) = addressManager w.
Proof.
  unfold reconcile_push.
  destruct (opened_envelope message) as [envelope|]; [|apply addressManager_legacy_push].
  destruct (addressBook_consumePeerRecord envelope (peerStore w)).1; [done|].
  by rewrite addressManager_legacy_push.
Qed.

(** X10.  Whatever is pushed, [_handlePush] first closes the stream, and its
    other calls are an envelope offered to the address book and addresses or
    protocols set for the remote peer of the connection: it writes no
    metadata, although the message may carry the versions, it learns no
    observed address, and it opens and writes no stream. *)
Theorem handlePush_writes_addresses_and_protocols_only self data w :
  (exists writes,
      calls_of (_handlePush self data) w = StreamClose (conn_id (connection data)) :: writes
      /\ Forall (push_write_for (remotePeer (connection data))) writes)
  /\ addressManager (_handlePush self data w).2 = addressManager w.
Proof.
  split.
  - destruct (_handlePush_calls_cases self data w) as [E|[message E]]; rewrite E.
    + by exists [].
    + eexists. split; [done|]. apply Forall_push_write_for_reconcile.
  - rewrite _handlePush_run. cbv zeta. cbn [snd].
    destruct (pushed self data) as [message|]; [|done].
    destruct (equals _ _); [done|].
    by rewrite addressManager_reconcile_push.
Qed.

(** X11.  For a push that was read and does not come from the local peer:
    when its signed peer record opens and the address book accepts it, only
    the protocols are written and the listen addresses are left aside; when
    the message has no signed peer record, or it does not open, the parsed
    listen addresses are set and then the protocols; when the record opens
    and the address book refuses it, the same follows the refused offer. *)
Theorem handlePush_envelope_or_listenAddrs self data w message :
  (read_push self data w).1 = inr (Some message) ->
  equals (peerId self) (remotePeer (connection data)) = false ->
  let id := remotePeer (connection data) in
  let tr := calls_of (_handlePush self data) w in
  (forall signedPeerRecord envelope,
      Identify.signedPeerRecord message = Some signedPeerRecord ->
      openAndCertify signedPeerRecord PeerRecord_DOMAIN = inr envelope ->
      (addressBook_consumePeerRecord envelope (peerStore w)).1 = true ->
      tr = [StreamClose (conn_id (connection data));
            ConsumePeerRecord envelope;
            ProtoBookSet id (Identify.protocols message)])
  /\ (forall addrs,
      (Identify.signedPeerRecord message = None
       \/ exists signedPeerRecord e,
            Identify.signedPeerRecord message = Some signedPeerRecord
            /\ openAndCertify signedPeerRecord PeerRecord_DOMAIN = inl e) ->
      Forall2 (fun b ma => multiaddr b = inr ma) (Identify.listenAddrs message) addrs ->
      tr = [StreamClose (conn_id (connection data));
            AddressBookSet id addrs;
            ProtoBookSet id (Identify.protocols message)])
  /\ (forall signedPeerRecord envelope addrs,
      Identify.signedPeerRecord message = Some signedPeerRecord ->
      openAndCertify signedPeerRecord PeerRecord_DOMAIN = inr envelope ->
      (addressBook_consumePeerRecord envelope (peerStore w)).1 = false ->
      Forall2 (fun b ma => multiaddr b = inr ma) (Identify.listenAddrs message) addrs ->
      tr = [StreamClose (conn_id (connection data));
            ConsumePeerRecord envelope;
            AddressBookSet id addrs;
            ProtoBookSet id (Identify.protocols message)]).
Proof.
  intros Hp Hl id tr. subst tr id.
  apply read_push_pushed in Hp.
  rewrite (_handlePush_calls _ _ _ _ Hp Hl).
  unfold reconcile_push_calls, opened_envelope, legacy_push_calls.
  repeat split.
  - intros spr envelope -> -> ->. done.
  - intros addrs Hnone Hf. rewrite (listenAddrs_calls_parsed _ _ _ Hf).
    destruct Hnone as [->|(spr & e & -> & ->)]; done.
  - intros spr envelope addrs -> -> -> Hf.
    by rewrite (listenAddrs_calls_parsed _ _ _ Hf).
Qed.

(** *** [_handleIdentify] *)

Lemma _handleIdentify_run self data w :
  _handleIdentify self data w =
  (inr tt,
   match get_peer (peerId self) (peerStore w) with
   | inl _ => only_closed data w
   | inr peerData =>
       if (0 <? length (advertised w))%nat
          && negb (bool_decide (is_Some (peerRecordEnvelope peerData)))
       then
         match seal (PeerRecord.mk (peerId self) (advertised w)) (peerId self) with
         | inl _ => only_closed data w
         | inr envelope =>
             only_closed data
               (record (StreamSink (conn_id (connection data))
                          (lp.encode (Identify_encode
                             (response self data peerData (advertised w)
                                       (Some (marshal envelope))))))
                       (offer_envelope envelope w))
         end
       else
         only_closed data
           (record (StreamSink (conn_id (connection data))
                      (lp.encode (Identify_encode
                         (response self data peerData (advertised w)
                                   (peerRecordEnvelope peerData)))))
                   w)
   end).
Proof.
  unfold _handleIdentify, only_closed, advertised, response, offer_envelope,
    finally, try_catch, bind, peerStore_get, gets, lift, ret, source_sink, modify,
    stream_close, peerStore_addressBook_consumePeerRecord.
  destruct (get_peer (peerId self) (peerStore w)) as [e|peerData]; [done|].
  cbn [fst snd].
  destruct (_ && _); [|done].
  by destruct (seal _ _) as [e|envelope].
Qed.

(** X12.  [_handleIdentify] never throws and always closes the stream.
    When the local peer is not in the peer store, or sealing the new
    envelope fails, it sends nothing and writes nothing. *)
Theorem handleIdentify_failures_send_nothing self data w :
  (_handleIdentify self data w).1 = inr tt
  /\ (forall e, get_peer (peerId self) (peerStore w) = inl e ->
                _handleIdentify self data w = (inr tt, only_closed data w))
  /\ (forall peerData e,
        get_peer (peerId self) (peerStore w) = inr peerData ->
        peerRecordEnvelope peerData = None ->
        advertised w <> [] ->
        seal (PeerRecord.mk (peerId self) (advertised w)) (peerId self) = inl e ->
        _handleIdentify self data w = (inr tt, only_closed data w)).
Proof.
  rewrite _handleIdentify_run. split; [done|]. split.
  - intros e ->. done.
  - intros peerData e -> -> Hne ->.
    destruct (advertised w); [done|]. done.
Qed.

(** X13.  When the peer store already holds a signed peer record for the
    local peer, or the node has no listen address, [_handleIdentify] seals
    nothing and leaves the peer store as it is: it sends one frame, the
    stored record (or none) with the host's versions, its public key, the
    advertised addresses, the remote address of the connection as observed
    address and the protocols of the local peer, then closes the stream. *)
Theorem handleIdentify_sends_stored_record self data w peerData :
  get_peer (peerId self) (peerStore w) = inr peerData ->
  (is_Some (peerRecordEnvelope peerData) \/ advertised w = []) ->
  calls_of (_handleIdentify self data) w
  = [StreamSink (conn_id (connection data))
       (lp.encode (Identify_encode
          (Identify.mk (Some (host_protocolVersion self))
                       (Some (host_agentVersion self))
                       (Some (default [] (publicKey (peerId self))))
                       (map bytes (advertised w))
                       (Some (bytes (remoteAddr (connection data))))
                       (peer_protocols peerData)
                       (peerRecordEnvelope peerData))));
     StreamClose (conn_id (connection data))]
  /\ peerStore (_handleIdentify self data w).2 = peerStore w.
Proof.
  intros Hget Hcond.
  assert (Hif : (0 <? length (advertised w))%nat
                && negb (bool_decide (is_Some (peerRecordEnvelope peerData))) = false).
  { destruct Hcond as [Hsome| ->]; [|done].
    rewrite bool_decide_eq_true_2 by done. apply andb_false_r. }
  split.
  - apply calls_of_app. rewrite _handleIdentify_run, Hget, Hif. cbn.
    by rewrite <- app_assoc.
  - by rewrite _handleIdentify_run, Hget, Hif.
Qed.

(** X14.  When the local peer has no signed peer record in the peer store
    and the node has listen addresses, [_handleIdentify] seals a peer
    record over the advertised addresses under the local peer id, offers
    the envelope to the address book, and sends its marshalled form in the
    response. *)
Theorem handleIdentify_seals_missing_record self data w peerData envelope :
  get_peer (peerId self) (peerStore w) = inr peerData ->
  peerRecordEnvelope peerData = None ->
  advertised w <> [] ->
  seal (PeerRecord.mk (peerId self) (advertised w)) (peerId self) = inr envelope ->
  calls_of (_handleIdentify self data) w
  = [ConsumePeerRecord envelope;
     StreamSink (conn_id (connection data))
       (lp.encode (Identify_encode
          (Identify.mk (Some (host_protocolVersion self))
                       (Some (host_agentVersion self))
                       (Some (default [] (publicKey (peerId self))))
                       (map bytes (advertised w))
                       (Some (bytes (remoteAddr (connection data))))
                       (peer_protocols peerData)
                       (Some (marshal envelope)))));
     StreamClose (conn_id (connection data))]
  /\ peerStore (_handleIdentify self data w).2
     = (addressBook_consumePeerRecord envelope (peerStore w)).2.
Proof.
  intros Hget Hnone Hne Hseal.
  assert (Hif : (0 <? length (advertised w))%nat
                && negb (bool_decide (is_Some (peerRecordEnvelope peerData))) = true).
  { rewrite Hnone. by destruct (advertised w). }
  split.
  - apply calls_of_app. rewrite _handleIdentify_run, Hget, Hif, Hseal. cbn.
    by rewrite <- !app_assoc.
  - by rewrite _handleIdentify_run, Hget, Hif, Hseal.
Qed.

End Responders.

(** ** Pushing, the life cycle and the events *)

Section Pushing.
Context {consts : Consts} {libs : Libraries} {PS AM : Type}
        {store : PeerStore PS} {manager : AddressManager AM}.
Local Abbreviation M := (M PS AM).
Local Abbreviation World := (World PS AM).
Implicit Types (self : IdentifyService) (conn : Connection) (w : World)
               (id : PeerId) (message : Identify.t) (data : IncomingStreamData).
Local Open Scope async_scope.

(** The world after the calls [tr] were recorded, in order. *)
Lemma record_all_calls (tr : list Call) :
  forall w, let w' := fold_left (fun w c => record c w) tr w in
            calls w' = calls w ++ tr
            /\ peerStore w' = peerStore w /\ addressManager w' = addressManager w
            /\ registrar w' = registrar w /\ started w' = started w
            /\ connections w' = connections w.
Proof.
  induction tr as [|c tr IH]; intros w; cbn.
  - by rewrite app_nil_r.
  - destruct (IH (record c w)) as (Hc & Hp & Ha & Hr & Hs & Hn).
    rewrite Hc, Hp, Ha, Hr, Hs, Hn. cbn. by rewrite <- app_assoc.
Qed.

Lemma push_one_run self (frame : Uint8Array) (c : Connection) w :
  try_catch
    (_ <- connection_newStream c [identifyPushProtocolStr self] ;;
     finally (source_sink c frame) (stream_close c))
    (fun err => ret tt) w
  = (inr tt, fold_left (fun w c => record c w) (push_calls self frame c) w).
Proof.
  unfold push_calls, try_catch, bind, connection_newStream, finally, source_sink, modify,
    stream_close, ret.
  by destruct (newStream c _).
Qed.

Lemma push_all_run self (frame : Uint8Array) (conns : list Connection) :
  forall w,
    for_of conns (fun connection =>
      try_catch
        (_ <- connection_newStream connection [identifyPushProtocolStr self] ;;
         finally (source_sink connection frame) (stream_close connection))
        (fun err => ret tt)) w
    = (inr tt,
       fold_left (fun w c => record c w) (concat (map (push_calls self frame) conns)) w).
Proof.
  induction conns as [|c conns IH]; intros w; [done|].
  cbn [for_of map concat]. erewrite bind_ok by apply push_one_run.
  rewrite IH. by rewrite fold_left_app.
Qed.

Lemma push_run self (conns : list Connection) w :
  push self conns w
  = (inr tt,
     fold_left (fun w c => record c w)
       (concat (map (push_calls self (lp.encode (Identify_encode (push_message self w))))
                    conns)) w).
Proof.
  unfold push.
  erewrite bind_ok by reflexivity. erewrite bind_ok by reflexivity.
  erewrite bind_ok by reflexivity. cbv beta.
  apply push_all_run.
Qed.


Lemma pushToPeerStore_loop self (peers : Connection -> Peer) w (l : list Connection) :
  forall acc,
    (forall c, In c l -> get_peer (remotePeer c) (peerStore w) = inr (peers c)) ->
    (fix loop (l : list Connection) (acc : list Connection) : M unit :=
       match l with
       | [] => push self acc
       | conn :: l' =>
           peer <- peerStore_get (remotePeer conn) ;;
           if negb (bool_decide (identifyPushProtocolStr self ∈ peer_protocols peer))
           then loop l' acc
           else loop l' (acc ++ [conn])
       end) l acc w
    = push self
        (acc ++ List.filter (fun c => bool_decide (identifyPushProtocolStr self
                                                     ∈ peer_protocols (peers c))) l) w.
Proof.
  induction l as [|c l IH]; intros acc Hget.
  - cbn. by rewrite app_nil_r.
  - cbn [List.filter].
    erewrite bind_ok; [|unfold peerStore_get; rewrite (Hget c); [reflexivity | by left]].
    destruct (bool_decide _); cbn [negb].
    + rewrite IH by (intros c' Hin; apply Hget; by right).
      by rewrite <- app_assoc.
    + apply IH. intros c' Hin. apply Hget. by right.
Qed.

Lemma pushToPeerStore_started_run self (peers : Connection -> Peer) w :
  started w = true ->
  (forall c, In c (connections w) ->
             get_peer (remotePeer c) (peerStore w) = inr (peers c)) ->
  pushToPeerStore self w
  = push self
      (List.filter (fun c => bool_decide (identifyPushProtocolStr self
                                            ∈ peer_protocols (peers c)))
                   (connections w)) w.
Proof.
  intros Hs Hget. unfold pushToPeerStore.
  erewrite bind_ok by reflexivity. cbn [negb]. rewrite Hs. cbn [negb].
  erewrite bind_ok by reflexivity.
  by rewrite (pushToPeerStore_loop self peers w (connections w) [] Hget).
Qed.

Lemma push_opens_one_stream_each self (conns : list Connection) w :
  List.filter (fun c => match c with NewStream _ _ => true | _ => false end)
    (calls_of (push self conns) w)
  = map (fun c => NewStream (conn_id c) [identifyPushProtocolStr self]) conns.
Proof.
  assert (Hc : calls_of (push self conns) w
               = concat (map (push_calls self
                                (lp.encode (Identify_encode (push_message self w)))) conns)).
  { apply calls_of_app. rewrite push_run. cbn [snd]. apply record_all_calls. }
  rewrite Hc. clear Hc.
  induction conns as [|c l IH]; [done|].
  cbn [map concat]. rewrite List.filter_app, IH.
  unfold push_calls. by destruct (newStream c _).
Qed.

(** X16.  When the service is started and every connected peer is in the
    peer store, [pushToPeerStore] pushes to exactly the connections whose
    remote peer lists the push protocol among its protocols, in the order of
    the connection manager: it opens one stream on each of them and none on
    another connection. *)
Theorem pushToPeerStore_selects_push_peers self (peers : Connection -> Peer) w :
  started w = true ->
  (forall c, In c (connections w) ->
             get_peer (remotePeer c) (peerStore w) = inr (peers c)) ->
  let selected :=
    List.filter (fun c => bool_decide (identifyPushProtocolStr self
                                         ∈ peer_protocols (peers c)))
                (connections w) in
  pushToPeerStore self w = push self selected w
  /\ List.filter (fun c => match c with NewStream _ _ => true | _ => false end)
       (calls_of (pushToPeerStore self) w)
     = map (fun c => NewStream (conn_id c) [identifyPushProtocolStr self]) selected.
Proof.
  intros Hs Hget selected.
  pose proof (pushToPeerStore_started_run self peers w Hs Hget) as E.
  fold selected in E. split; [done|].
  unfold calls_of. rewrite E. apply push_opens_one_stream_each.
Qed.

Lemma pushToPeerStore_loop_aborts self w (l1 l2 : list Connection) (c : Connection) e :
  forall acc,
    (forall c', In c' l1 -> exists peer, get_peer (remotePeer c') (peerStore w) = inr peer) ->
    get_peer (remotePeer c) (peerStore w) = inl e ->
    (fix loop (l : list Connection) (acc : list Connection) : M unit :=
       match l with
       | [] => push self acc
       | conn :: l' =>
           peer <- peerStore_get (remotePeer conn) ;;
           if negb (bool_decide (identifyPushProtocolStr self ∈ peer_protocols peer))
           then loop l' acc
           else loop l' (acc ++ [conn])
       end) (l1 ++ c :: l2) acc w
    = (inl e, w).
Proof.
  induction l1 as [|c1 l1 IH]; intros acc Hget He.
  - cbn [app]. erewrite bind_throw; [done|]. unfold peerStore_get. by rewrite He.
  - cbn [app]. destruct (Hget c1) as [peer Hp]; [by left|].
    erewrite bind_ok; [|unfold peerStore_get; by rewrite Hp].
    destruct (negb _); apply IH; try done; intros c' Hin; apply Hget; by right.
Qed.

(** X17.  When some connected peer is not in the peer store,
    [pushToPeerStore] throws the error of [peerStore.get] before anything
    is pushed: no stream is opened, not even to the peers looked up before
    it. *)
Theorem pushToPeerStore_unknown_peer_aborts self w (l1 l2 : list Connection) c e :
  started w = true ->
  connections w = l1 ++ c :: l2 ->
  (forall c', In c' l1 -> exists peer, get_peer (remotePeer c') (peerStore w) = inr peer) ->
  get_peer (remotePeer c) (peerStore w) = inl e ->
  pushToPeerStore self w = (inl e, w).
Proof.
  intros Hs Hconns Hget He. unfold pushToPeerStore.
  erewrite bind_ok by reflexivity. rewrite Hs. cbn [negb].
  erewrite bind_ok by reflexivity. rewrite Hconns.
  by apply pushToPeerStore_loop_aborts.
Qed.

(** *** start, stop *)

Lemma start_run self w :
  started w = false ->
  start self w
  = (inr tt,
     with_started true
       (with_registrar
          (<[identifyPushProtocolStr self :=
               mkStreamHandlerRecord handlePush (maxPushIncomingStreams (init self))
                                     (maxPushOutgoingStreams (init self))]>
             (<[identifyProtocolStr self :=
                  mkStreamHandlerRecord handleIdentify (maxInboundStreams (init self))
                                        (maxOutboundStreams (init self))]>
                (registrar w)))
          (with_peerStore
             (metadataBook_setValue (peerId self) "ProtocolVersion"
                (uint8ArrayFromString (host_protocolVersion self))
                (metadataBook_setValue (peerId self) "AgentVersion"
                   (uint8ArrayFromString (host_agentVersion self)) (peerStore w)))
             (fold_left (fun w c => record c w)
                [MetadataBookSetValue (peerId self) "AgentVersion"
                   (uint8ArrayFromString (host_agentVersion self));
                 MetadataBookSetValue (peerId self) "ProtocolVersion"
                   (uint8ArrayFromString (host_protocolVersion self));
                 RegistrarHandle (identifyProtocolStr self);
                 RegistrarHandle (identifyPushProtocolStr self)] w)))).
Proof.
  intros Hs. unfold start. erewrite bind_ok by reflexivity. rewrite Hs.
  reflexivity.
Qed.

(** X18.  [start] is idempotent: a second [start] does nothing, whatever
    the state before the first. *)
Theorem start_twice_is_start_once self w :
  start self (start self w).2 = (inr tt, (start self w).2).
Proof.
  assert (Hstarted : forall w', started w' = true -> start self w' = (inr tt, w')).
  { intros w' Hs. unfold start. erewrite bind_ok by reflexivity. by rewrite Hs. }
  destruct (started w) eqn:Hs.
  - rewrite (Hstarted w Hs). by apply Hstarted.
  - rewrite (start_run self w Hs). by apply Hstarted.
Qed.

(** X19.  On a service that is not started, [start] writes the host's agent
    version and protocol version as metadata of the local peer, registers
    the identify handler under the identify protocol with the stream limits
    [maxInboundStreams] and [maxOutboundStreams] and the push handler under
    the push protocol with [maxPushIncomingStreams] and
    [maxPushOutgoingStreams], leaves every other registration alone, and
    sets the flag. *)
Theorem start_registers_both_handlers self w :
  started w = false ->
  identifyProtocolStr self <> identifyPushProtocolStr self ->
  let w' := (start self w).2 in
  started w' = true
  /\ registrar w' !! identifyProtocolStr self
     = Some (mkStreamHandlerRecord handleIdentify (maxInboundStreams (init self))
                                   (maxOutboundStreams (init self)))
  /\ registrar w' !! identifyPushProtocolStr self
     = Some (mkStreamHandlerRecord handlePush (maxPushIncomingStreams (init self))
                                   (maxPushOutgoingStreams (init self)))
  /\ (forall protocol,
        protocol <> identifyProtocolStr self ->
        protocol <> identifyPushProtocolStr self ->
        registrar w' !! protocol = registrar w !! protocol)
  /\ calls_of (start self) w
     = [MetadataBookSetValue (peerId self) "AgentVersion"
          (uint8ArrayFromString (agentVersion (host (init self))));
        MetadataBookSetValue (peerId self) "ProtocolVersion"
          (uint8ArrayFromString (protocolPrefix (init self) ++ "/" ++ IDENTIFY_PROTOCOL_VERSION));
        RegistrarHandle (identifyProtocolStr self);
        RegistrarHandle (identifyPushProtocolStr self)].
Proof.
  intros Hs Hne w'. subst w'. rewrite (start_run self w Hs). cbn [snd].
  repeat split.
  - cbn. rewrite lookup_insert_ne by done. apply lookup_insert_eq.
  - cbn. apply lookup_insert_eq.
  - intros protocol H1 H2. cbn. by rewrite !lookup_insert_ne.
  - apply calls_of_app. rewrite (start_run self w Hs). cbn. by rewrite <- !app_assoc.
Qed.

(** X20.  [start] followed by [stop] gives back the registrar's table and
    the flag of a service that was not started and had neither protocol
    registered; the metadata [start] wrote for the local peer stay. *)
Theorem start_then_stop_restores_registrar self w :
  started w = false ->
  registrar w !! identifyProtocolStr self = None ->
  registrar w !! identifyPushProtocolStr self = None ->
  let w' := (stop self (start self w).2).2 in
  registrar w' = registrar w
  /\ started w' = false
  /\ peerStore w' = peerStore (start self w).2.
Proof.
  intros Hs H1 H2 w'. subst w'. rewrite (start_run self w Hs). cbn.
  repeat split.
  apply map_eq. intros k.
  destruct (decide (k = identifyPushProtocolStr self)) as [->|Hk2].
  { rewrite lookup_delete_eq. by rewrite H2. }
  rewrite lookup_delete_ne by done.
  destruct (decide (k = identifyProtocolStr self)) as [->|Hk1].
  { rewrite lookup_delete_eq. by rewrite H1. }
  rewrite lookup_delete_ne by done.
  by rewrite !lookup_insert_ne.
Qed.

(** X21.  Once started, an inbound stream negotiated to the identify
    protocol is answered by [_handleIdentify], one negotiated to the push
    protocol is read by [_handlePush], and a stream for a protocol that is
    not registered is left alone. *)
Theorem incoming_streams_reach_their_handler self w data :
  started w = false ->
  identifyProtocolStr self <> identifyPushProtocolStr self ->
  let w' := (start self w).2 in
  onIncomingStream self (identifyProtocolStr self) data w' = _handleIdentify self data w'
  /\ onIncomingStream self (identifyPushProtocolStr self) data w' = _handlePush self data w'
  /\ (forall protocol, registrar w' !! protocol = None ->
                       onIncomingStream self protocol data w' = (inr tt, w')).
Proof.
  intros Hs Hne w'.
  assert (H1 : registrar w' !! identifyProtocolStr self
               = Some (mkStreamHandlerRecord handleIdentify (maxInboundStreams (init self))
                                             (maxOutboundStreams (init self)))).
  { subst w'. rewrite (start_run self w Hs). cbn.
    rewrite lookup_insert_ne by done. apply lookup_insert_eq. }
  assert (H2 : registrar w' !! identifyPushProtocolStr self
               = Some (mkStreamHandlerRecord handlePush (maxPushIncomingStreams (init self))
                                             (maxPushOutgoingStreams (init self)))).
  { subst w'. rewrite (start_run self w Hs). cbn. apply lookup_insert_eq. }
  unfold onIncomingStream. repeat split.
  - erewrite bind_ok by reflexivity. rewrite H1. cbn [handler].
    unfold try_catch. by rewrite _handleIdentify_run.
  - erewrite bind_ok by reflexivity. rewrite H2. cbn [handler].
    unfold try_catch. by rewrite _handlePush_run.
  - intros protocol Hnone. erewrite bind_ok by reflexivity. by rewrite Hnone.
Qed.

(** X22.  The listeners never throw: the error of an identify exchange
    started by a [peer:connect] event, or of a push started by a change
    event, stays inside the listener.  A change of the addresses or the
    protocols of a peer other than the local one does nothing. *)
Theorem listeners_never_throw self evt w :
  (dispatchEvent self evt w).1 = inr tt
  /\ (forall p, equals (peerId self) p = false ->
                evt = change_multiaddrs p \/ evt = change_protocols p ->
                dispatchEvent self evt w = (inr tt, w)).
Proof.
  split.
  - destruct evt as [conn|p|p]; cbn; unfold try_catch.
    + by destruct (identify self conn w) as [[e|[]] w'].
    + destruct (equals _ _); [|done].
      by destruct (pushToPeerStore self w) as [[e|[]] w'].
    + destruct (equals _ _); [|done].
      by destruct (pushToPeerStore self w) as [[e|[]] w'].
  - intros p Hp [-> | ->]; cbn; by rewrite Hp.
Qed.

(** X23.  A change of the local addresses or protocols on a started service
    whose connected peers are all in the peer store pushes to the peers
    that support the push protocol, and to no other: the listener opens one
    push stream on each of their connections, and leaves the peer store and
    the address manager as they are. *)
Theorem local_change_pushes_to_push_peers self (peers : Connection -> Peer) w p evt :
  started w = true ->
  equals (peerId self) p = true ->
  evt = change_multiaddrs p \/ evt = change_protocols p ->
  (forall c, In c (connections w) ->
             get_peer (remotePeer c) (peerStore w) = inr (peers c)) ->
  let selected :=
    List.filter (fun c => bool_decide (identifyPushProtocolStr self
                                         ∈ peer_protocols (peers c)))
                (connections w) in
  List.filter (fun c => match c with NewStream _ _ => true | _ => false end)
    (calls_of (dispatchEvent self evt) w)
  = map (fun c => NewStream (conn_id c) [identifyPushProtocolStr self]) selected
  /\ peerStore (dispatchEvent self evt w).2 = peerStore w
  /\ addressManager (dispatchEvent self evt w).2 = addressManager w.
Proof.
  intros Hs Hp Hevt Hget selected.
  assert (E : dispatchEvent self evt w = push self selected w).
  { destruct Hevt as [-> | ->]; unfold dispatchEvent; rewrite Hp; unfold try_catch;
      rewrite (pushToPeerStore_started_run self peers w Hs Hget);
      fold selected; by rewrite push_run. }
  unfold calls_of. rewrite E. split; [apply push_opens_one_stream_each|].
  rewrite push_run. cbn [snd].
  destruct (record_all_calls
              (concat (map (push_calls self (lp.encode (Identify_encode (push_message self w))))
                           selected)) w) as (_ & Hps & Ham & _).
  done.
Qed.

(** X24.  What [_handleIdentify] sends, [identify] reads: a frame sent by
    the responder is the encoding of a message with the responder's public
    key (empty if it has none), its versions and the initiator's address as
    observed address; and when the codec decodes that encoding back to the
    message and the encoding respects the initiator's size limit,
    [_identify] on a stream that delivers the frame returns exactly that
    message. *)
Theorem identify_reads_what_handleIdentify_sends
        (responder initiator : IdentifyService) data w conn w0 sent :
  In (StreamSink (conn_id (connection data)) sent)
     (calls_of (_handleIdentify responder data) w) ->
  exists message,
    sent = lp.encode (Identify_encode message)
    /\ Identify.publicKey message = Some (default [] (publicKey (peerId responder)))
    /\ Identify.agentVersion message = Some (agentVersion (host (init responder)))
    /\ Identify.observedAddr message = Some (bytes (remoteAddr (connection data)))
    /\ (Identify_decode (Identify_encode message) = inr message ->
        (N.of_nat (length (Identify_encode message)) <= maxDataLength initiator)%N ->
        newStream conn [identifyProtocolStr initiator] = inr (inr sent) ->
        (_identify initiator conn w0).1 = inr message).
Proof.
  intros Hin.
  assert (Hread : forall message,
    sent = lp.encode (Identify_encode message) ->
    Identify_decode (Identify_encode message) = inr message ->
    (N.of_nat (length (Identify_encode message)) <= maxDataLength initiator)%N ->
    newStream conn [identifyProtocolStr initiator] = inr (inr sent) ->
    (_identify initiator conn w0).1 = inr message).
  { intros message -> Hcodec Hlen Hs. rewrite _identify_run, Hs. cbn [fst]. unfold received.
    rewrite decode_one_encode by done. cbn. by rewrite Hcodec. }
  unfold calls_of in Hin. rewrite _handleIdentify_run in Hin. cbn [snd] in Hin.
  destruct (get_peer (peerId responder) (peerStore w)) as [e|peerData].
  { cbn in Hin. rewrite drop_app_length in Hin. by destruct Hin as [|[]]. }
  destruct (_ && _).
  - destruct (seal _ _) as [e|envelope].
    { cbn in Hin. rewrite drop_app_length in Hin. by destruct Hin as [|[]]. }
    cbn in Hin. rewrite <- !app_assoc, drop_app_length in Hin.
    destruct Hin as [|[Hin|[|[]]]]; try done.
    injection Hin as <-. eexists. split; [reflexivity|]. repeat split. eauto.
  - cbn in Hin. rewrite <- !app_assoc, drop_app_length in Hin.
    destruct Hin as [Hin|[|[]]]; try done.
    injection Hin as <-. eexists. split; [reflexivity|]. repeat split. eauto.
Qed.

End Pushing.

(** ** The further properties on concrete peers *)

Section Deployments.
Import Testbed Scenario Deployment.
#[local] Existing Instance Testbed.consts.
#[local] Existing Instance Testbed.peerStore_in_memory.
#[local] Existing Instance Testbed.addressManager_in_memory.

(** X1, on a message whose key is [peerZ]'s while the connection is to
    [peerA]. *)
Lemma identify_failure_writes_nothing_witness :
  let exchange := identify (libs := always (legacy_message (Some keyZ) [addr1]))
                           (serviceB None) connA in
  peerStore (exchange world0).2 = []
  /\ addressManager (exchange world0).2 = mkAddresses [] []
  /\ (calls_of exchange world0 = [NewStream "conn-A" ["/ipfs/id/1.0.0"]]
      \/ calls_of exchange world0
         = [NewStream "conn-A" ["/ipfs/id/1.0.0"]; StreamClose "conn-A"]).
Proof.
  exact (identify_failure_writes_nothing
           (libs := always (legacy_message (Some keyZ) [addr1]))
           (serviceB None) connA world0
           (CodeError "identified peer does not match the expected peer"
                      codes.ERR_INVALID_PEER)
           eq_refl).
Defined.

(** X2, on a legacy message of [peerA]. *)
Lemma identify_completes_and_stores_identity_witness :
  let exchange := identify (libs := always (legacy_message (Some keyA) [addr1]))
                           (serviceB None) connA in
  (exchange world0).1 = inr tt
  /\ List.filter is_ProtoBookSet (calls_of exchange world0)
     = [ProtoBookSet peerA ["/chat/1"; "/ping/1"]]
  /\ List.filter is_MetadataBookSetValue (calls_of exchange world0)
     = [MetadataBookSetValue peerA "AgentVersion" (uint8ArrayFromString "a/1");
        MetadataBookSetValue peerA "ProtocolVersion" (uint8ArrayFromString "ipfs/0.1.0")].
Proof.
  exact (identify_completes_and_stores_identity
           (libs := always (legacy_message (Some keyA) [addr1]))
           (serviceB None) connA world0 (legacy_message (Some keyA) [addr1]) keyA peerA
           eq_refl eq_refl eq_refl eq_refl eq_refl).
Defined.

(** X3, on the addresses set by an exchange with [peerA]. *)
Lemma identify_writes_only_for_remote_peer_witness :
  multihash peerA = multihash (remotePeer connA)
  /\ multihash peerA <> multihash (peerId (serviceB None)).
Proof.
  apply (identify_writes_only_for_remote_peer
           (libs := always (legacy_message (Some keyA) [addr1]))
           (serviceB None) connA world0 (AddressBookSet peerA [mkMultiaddr addr1]) peerA).
  - vm_compute. right. right. left. reflexivity.
  - reflexivity.
Defined.


(** X6, on a message whose observed address does not parse. *)
Lemma identify_without_usable_observedAddr_witness :
  let exchange := identify (libs := always message_with_garbage_observedAddr)
                           (serviceB None) connA in
  (exchange world0).1 = inr tt
  /\ List.filter is_AddObservedAddr (calls_of exchange world0) = []
  /\ addressManager (exchange world0).2 = mkAddresses [] [].
Proof.
  apply (identify_without_usable_observedAddr
           (libs := always message_with_garbage_observedAddr)
           (serviceB None) connA world0 message_with_garbage_observedAddr keyA peerA);
    try reflexivity.
  right. right. exists garbage, (mkError "invalid multiaddr" None).
  split; reflexivity.
Defined.

(** X7, with a cap of one and no observed address yet. *)
Lemma identify_learns_observedAddr_below_cap_witness :
  let exchange := identify (libs := always (legacy_message (Some keyA) [addr1]))
                           (serviceB (Some 1)) connA in
  (exchange world0).1 = inr tt
  /\ List.filter is_AddObservedAddr (calls_of exchange world0)
     = [AddObservedAddr (mkMultiaddr observedB)]
  /\ addressManager (exchange world0).2 = mkAddresses [] [mkMultiaddr observedB].
Proof.
  pose proof (identify_learns_observedAddr_below_cap
                (libs := always (legacy_message (Some keyA) [addr1]))
                (serviceB (Some 1)) connA world0 (legacy_message (Some keyA) [addr1])
                keyA peerA observedB (mkMultiaddr observedB)
                eq_refl eq_refl eq_refl eq_refl eq_refl eq_refl eq_refl
                ltac:(discriminate) eq_refl) as (H1 & H2 & H3 & _).
  split; [exact H1 | split; [exact H2 | exact H3]].
Defined.

(** X8, on a message whose envelope is signed by [peerA]. *)
Lemma identify_envelope_path_witness :
  let exchange := identify (libs := always (signed_message Byte.x41)) (serviceB None) connA in
  calls_of exchange world0
  = [NewStream "conn-A" ["/ipfs/id/1.0.0"];
     StreamClose "conn-A";
     ConsumePeerRecord (envelope_of Byte.x41);
     ProtoBookSet peerA ["/chat/1"; "/ping/1"];
     MetadataBookSetValue peerA "AgentVersion" (uint8ArrayFromString "a/1");
     MetadataBookSetValue peerA "ProtocolVersion" (uint8ArrayFromString "ipfs/0.1.0")]
  /\ addressManager (exchange world0).2 = mkAddresses [] [].
Proof.
  exact (identify_envelope_path
           (libs := always (signed_message Byte.x41))
           (serviceB None) connA world0 (signed_message Byte.x41) keyA peerA
           (envelope_bytes Byte.x41 addr1) (envelope_of Byte.x41)
           eq_refl eq_refl eq_refl eq_refl eq_refl eq_refl eq_refl eq_refl eq_refl).
Defined.

(** X9, on a push that arrives at a node running under [peerA]'s id over
    the connection to [peerA]. *)
Lemma handlePush_ignores_unreadable_and_self_witness :
  _handlePush (libs := always (legacy_message (Some keyA) [addr1])) serviceA pushA world0
  = (inr tt, only_closed pushA world0).
Proof.
  pose proof (handlePush_ignores_unreadable_and_self
                (libs := always (legacy_message (Some keyA) [addr1]))
                serviceA pushA world0) as (_ & _ & _ & H).
  exact (H eq_refl).
Defined.

(** X11, on a push of [peerA] without a signed peer record. *)
Lemma handlePush_envelope_or_listenAddrs_witness :
  calls_of (_handlePush (libs := always (legacy_message (Some keyA) [addr1]))
                        (serviceB None) pushA) world0
  = [StreamClose "conn-A";
     AddressBookSet peerA [mkMultiaddr addr1];
     ProtoBookSet peerA ["/chat/1"; "/ping/1"]].
Proof.
  pose proof (handlePush_envelope_or_listenAddrs
                (libs := always (legacy_message (Some keyA) [addr1]))
                (serviceB None) pushA world0 (legacy_message (Some keyA) [addr1])
                eq_refl eq_refl) as (_ & H & _).
  apply (H [mkMultiaddr addr1]); [by left|]. repeat constructor.
Defined.

(** X12, on a node whose peer store does not hold the local peer. *)
Lemma handleIdentify_failures_send_nothing_witness :
  _handleIdentify (libs := always (legacy_message (Some keyA) [addr1])) (serviceB None)
                  pushA world0
  = (inr tt, only_closed pushA world0).
Proof.
  pose proof (handleIdentify_failures_send_nothing
                (libs := always (legacy_message (Some keyA) [addr1]))
                (serviceB None) pushA world0) as (_ & H & _).
  exact (H (mkError "Not found" (Some "ERR_NOT_FOUND")) eq_refl).
Defined.

(** X13, on a started node that listens nowhere. *)
Lemma handleIdentify_sends_stored_record_witness :
  let L := always (legacy_message (Some keyA) [addr1]) in
  let w := (start (serviceB None) world0).2 in
  calls_of (_handleIdentify (libs := L) (serviceB None) pushA) w
  = [StreamSink "conn-A" (lp.encode (Identify_encode (Libraries := L) responseB));
     StreamClose "conn-A"]
  /\ peerStore (_handleIdentify (libs := L) (serviceB None) pushA w).2 = peerStore w.
Proof.
  exact (handleIdentify_sends_stored_record
           (libs := always (legacy_message (Some keyA) [addr1]))
           (serviceB None) pushA (start (serviceB None) world0).2 (mkPeer [] None)
           eq_refl (or_intror eq_refl)).
Defined.

(** X14, on a started node that listens on [addr2] and has no signed peer
    record yet: the record is stored under [peerB] and sent. *)
Lemma handleIdentify_seals_missing_record_witness :
  let L := always (legacy_message (Some keyA) [addr1]) in
  let w := (start (serviceB None) listening).2 in
  let envelope := RecordEnvelope.mk peerB [] (Byte.x01 :: addr2) [Byte.x01] in
  calls_of (_handleIdentify (libs := L) (serviceB None) pushA) w
  = [ConsumePeerRecord envelope;
     StreamSink "conn-A"
       (lp.encode (Identify_encode (Libraries := L)
          (Identify.mk (Some "ipfs/0.1.0") (Some "js-libp2p/0.43.2") (Some keyB) [addr2]
                       (Some addr1) [] (Some (marshal_envelope envelope)))));
     StreamClose "conn-A"]
  /\ addresses (entry peerB (peerStore (_handleIdentify (libs := L) (serviceB None) pushA w).2))
     = [mkMultiaddr addr2].
Proof.
  intros L w envelope.
  pose proof (handleIdentify_seals_missing_record (libs := L)
                (serviceB None) pushA w (mkPeer [] None) envelope
                eq_refl eq_refl ltac:(discriminate) eq_refl) as (H1 & H2).
  split; [exact H1 | by rewrite H2].
Defined.

(** X16, on a node connected to [peerA], which supports the push protocol,
    and to [peerZ], which does not. *)
Lemma pushToPeerStore_selects_push_peers_witness :
  let L := always (legacy_message (Some keyA) [addr1]) in
  pushToPeerStore (libs := L) (serviceB None) (running known_peers)
  = push (libs := L) (serviceB None) [connA] (running known_peers)
  /\ List.filter (fun c => match c with NewStream _ _ => true | _ => false end)
       (calls_of (pushToPeerStore (libs := L) (serviceB None)) (running known_peers))
     = [NewStream "conn-A" ["/ipfs/id/push/1.0.0"]].
Proof.
  assert (Hget : forall c, In c (connections (running known_peers)) ->
                           get_peer (remotePeer c) (peerStore (running known_peers))
                           = inr (peers_of known_peers c))
    by (intros c [<-|[<-|[]]]; reflexivity).
  exact (pushToPeerStore_selects_push_peers
           (libs := always (legacy_message (Some keyA) [addr1]))
           (serviceB None) (peers_of known_peers) (running known_peers) eq_refl Hget).
Defined.

(** X17, on a node connected to [peerA], which the peer store knows, and to
    [peerZ], which it does not. *)
Lemma pushToPeerStore_unknown_peer_aborts_witness :
  pushToPeerStore (libs := always (legacy_message (Some keyA) [addr1])) (serviceB None)
                  (running peerA_alone)
  = (inl (mkError "Not found" (Some "ERR_NOT_FOUND")), running peerA_alone).
Proof.
  apply (pushToPeerStore_unknown_peer_aborts
           (libs := always (legacy_message (Some keyA) [addr1]))
           (serviceB None) (running peerA_alone) [connA] [] connZ
           (mkError "Not found" (Some "ERR_NOT_FOUND")) eq_refl eq_refl).
  - intros c [<-|[]]. by eexists.
  - reflexivity.
Defined.

(** X19, on the node [peerB]. *)
Lemma start_registers_both_handlers_witness :
  let w' := (start (serviceB None) world0).2 in
  started w' = true
  /\ registrar w' !! "/ipfs/id/1.0.0" = Some (mkStreamHandlerRecord handleIdentify 1 1)
  /\ registrar w' !! "/ipfs/id/push/1.0.0" = Some (mkStreamHandlerRecord handlePush 1 1)
  /\ calls_of (start (serviceB None)) world0
     = [MetadataBookSetValue peerB "AgentVersion" (uint8ArrayFromString "js-libp2p/0.43.2");
        MetadataBookSetValue peerB "ProtocolVersion" (uint8ArrayFromString "ipfs/0.1.0");
        RegistrarHandle "/ipfs/id/1.0.0";
        RegistrarHandle "/ipfs/id/push/1.0.0"].
Proof.
  assert (Hne : identifyProtocolStr (serviceB None) <> identifyPushProtocolStr (serviceB None))
    by (intros H; vm_compute in H; discriminate H).
  pose proof (start_registers_both_handlers (serviceB None) world0 eq_refl Hne)
    as (H1 & H2 & H3 & _ & H5).
  split; [exact H1 | split; [exact H2 | split; [exact H3 | exact H5]]].
Defined.

(** X20, on the node [peerB]. *)
Lemma start_then_stop_restores_registrar_witness :
  let w' := (stop (serviceB None) (start (serviceB None) world0).2).2 in
  registrar w' = ∅
  /\ started w' = false
  /\ protos (entry peerB (peerStore w')) = []
  /\ metadata (entry peerB (peerStore w'))
     = [("ProtocolVersion", uint8ArrayFromString "ipfs/0.1.0");
        ("AgentVersion", uint8ArrayFromString "js-libp2p/0.43.2")].
Proof.
  pose proof (start_then_stop_restores_registrar (serviceB None) world0
                eq_refl eq_refl eq_refl) as (H1 & H2 & H3).
  split; [exact H1 | split; [exact H2 |]]. rewrite H3. split; reflexivity.
Defined.

(** X21, on the node [peerB]. *)
Lemma incoming_streams_reach_their_handler_witness :
  let L := always (legacy_message (Some keyA) [addr1]) in
  let w' := (start (serviceB None) world0).2 in
  onIncomingStream (libs := L) (serviceB None) "/ipfs/id/1.0.0" pushA w'
  = _handleIdentify (libs := L) (serviceB None) pushA w'
  /\ onIncomingStream (libs := L) (serviceB None) "/ipfs/id/push/1.0.0" pushA w'
     = _handlePush (libs := L) (serviceB None) pushA w'.
Proof.
  assert (Hne : identifyProtocolStr (serviceB None) <> identifyPushProtocolStr (serviceB None))
    by (intros H; vm_compute in H; discriminate H).
  pose proof (incoming_streams_reach_their_handler
                (libs := always (legacy_message (Some keyA) [addr1]))
                (serviceB None) world0 pushA eq_refl Hne) as (H1 & H2 & _).
  split; [exact H1 | exact H2].
Defined.

(** X22, on a change of the protocols of [peerA] seen by the node [peerB]. *)
Lemma listeners_never_throw_witness :
  dispatchEvent (libs := always (legacy_message (Some keyA) [addr1])) (serviceB None)
                (change_protocols peerA) (running known_peers)
  = (inr tt, running known_peers).
Proof.
  pose proof (listeners_never_throw
                (libs := always (legacy_message (Some keyA) [addr1]))
                (serviceB None) (change_protocols peerA) (running known_peers)) as (_ & H).
  exact (H peerA eq_refl (or_intror eq_refl)).
Defined.

(** X23, on a change of the addresses of [peerB] itself. *)
Lemma local_change_pushes_to_push_peers_witness :
  let L := always (legacy_message (Some keyA) [addr1]) in
  let listener := dispatchEvent (libs := L) (serviceB None) (change_multiaddrs peerB) in
  List.filter (fun c => match c with NewStream _ _ => true | _ => false end)
    (calls_of listener (running known_peers))
  = [NewStream "conn-A" ["/ipfs/id/push/1.0.0"]]
  /\ peerStore (listener (running known_peers)).2 = known_peers
  /\ addressManager (listener (running known_peers)).2 = mkAddresses [mkMultiaddr addr2] [].
Proof.
  assert (Hget : forall c, In c (connections (running known_peers)) ->
                           get_peer (remotePeer c) (peerStore (running known_peers))
                           = inr (peers_of known_peers c))
    by (intros c [<-|[<-|[]]]; reflexivity).
  exact (local_change_pushes_to_push_peers
           (libs := always (legacy_message (Some keyA) [addr1]))
           (serviceB None) (peers_of known_peers) (running known_peers) peerB
           (change_multiaddrs peerB) eq_refl eq_refl (or_introl eq_refl) Hget).
Defined.

(** X24, on the response of [peerB] to [peerA], read back by a node that
    runs under [peerA]'s id over a codec that decodes the frame to that
    response. *)
Lemma identify_reads_what_handleIdentify_sends_witness :
  let L := always responseB in
  exists message,
    lp.encode [Byte.x0a] = lp.encode (Identify_encode (Libraries := L) message)
    /\ Identify.publicKey message = Some keyB
    /\ Identify.agentVersion message = Some "js-libp2p/0.43.2"
    /\ Identify.observedAddr message = Some addr1
    /\ (Identify_decode (Libraries := L) (Identify_encode (Libraries := L) message)
          = inr message ->
        (_identify (libs := L) serviceA (connA_with (lp.encode [Byte.x0a])) world0).1
          = inr message).
Proof.
  intros L.
  destruct (identify_reads_what_handleIdentify_sends (libs := L)
              (serviceB None) serviceA pushA (start (serviceB None) world0).2
              (connA_with (lp.encode [Byte.x0a])) world0 (lp.encode [Byte.x0a]))
    as (message & H1 & H2 & H3 & H4 & H5).
  { vm_compute. left. reflexivity. }
  exists message. repeat split; try assumption.
  intros Hcodec. apply H5; [exact Hcodec | vm_compute; discriminate | reflexivity].
Defined.

End Deployments.
